(** * Winning Wordle: the feedback encoder, the partition engine, the win
    verifier and the disjoint-word generator of the notebook, embedded
    shallowly and verified.

    Python values are modelled as follows.
    - [str] (a [Word], a [Reply]) is a list of characters; [s[i]] is the
      list lookup [s !! i], whose [None] is Python's [IndexError].
    - A function that can raise returns [option]; [None] is the exception.
    - [Counter] is a finite map from characters to integers whose lookup of
      a missing key is [0].
    - A [dict] whose iteration order is observed ([defaultdict(list)],
      [Counter(...).values()]) is an association list in insertion order.
    - [set] of characters is [gset ascii].
    - A [float] is a primitive IEEE 754 double ([PrimFloat.float]), with the
      kernel's correctly rounded addition and division.

    The file also covers the ranking helpers [top] and [bot], the [report]
    of the Wordle notebook, and the Game of Life notebook: a [World] is a
    [gset] of integer pairs, the neighbour [Counter] a [gmap] from cells to
    integers, and the generator [life] the list of the worlds it yields. *)

From Stdlib Require Import ZArith QArith Ascii String.
From Stdlib Require Floats Uint63.
From stdpp Require Import base option list gmap strings sorting.

Local Close Scope Q_scope.
Local Open Scope nat_scope.
#[local] Set Warnings "-clear-no-such-hyp".

(** ** Words and replies *)

Abbreviation Word := (list ascii).
Abbreviation Reply := (list ascii).

(** A Python string literal. *)
Definition str (s : string) : list ascii := String.list_ascii_of_string s.

Definition Green : ascii := "G"%char.
Definition Yellow : ascii := "Y"%char.
Definition Miss : ascii := "."%char.

(** ** A loop in the exception monad *)

Fixpoint foldM {S A : Type} (f : S → A → option S) (s : S) (l : list A)
  : option S :=
  match l with
  | [] => Some s
  | x :: l' => s' ← f s x; foldM f s' l'
  end.

(** [range(5)] *)
Definition range5 : list nat := seq 0 5.

(** ** [collections.Counter] over characters *)

Definition count_of (c : gmap ascii Z) (k : ascii) : Z := default 0%Z (c !! k).

Definition counter_add (c : gmap ascii Z) (k : ascii) : gmap ascii Z :=
  <[k := (count_of c k + 1)%Z]> c.

Definition counter_dec (c : gmap ascii Z) (k : ascii) : gmap ascii Z :=
  <[k := (count_of c k - 1)%Z]> c.

(** ** The feedback encoder [reply_for] *)

(** [[Green if guess[i] == target[i] else Miss for i in range(5)]] *)
Definition first_pass (guess target : Word) : option (list ascii) :=
  mapM (λ i, g ← guess !! i; t ← target !! i;
             Some (if decide (g = t) then Green else Miss)) range5.

(** [Counter(target[i] for i in range(5) if guess[i] != target[i])] *)
Definition unmatched (guess target : Word) : option (gmap ascii Z) :=
  foldM (λ c i, g ← guess !! i; t ← target !! i;
                Some (if decide (g ≠ t) then counter_add c t else c))
        ∅ range5.

(** One iteration of the second loop, on the pair [(counts, reply)]. *)
Definition yellow_step (guess : Word) (st : gmap ascii Z * list ascii) (i : nat)
  : option (gmap ascii Z * list ascii) :=
  r ← st.2 !! i;
  if decide (r = Miss) then
    g ← guess !! i;
    if decide (0 < count_of st.1 g)%Z
    then Some (counter_dec st.1 g, <[i := Yellow]> st.2)
    else Some st
  else Some st.

Definition reply_for (guess target : Word) : option Reply :=
  reply ← first_pass guess target;
  counts ← unmatched guess target;
  st ← foldM (yellow_step guess) (counts, reply) range5;
  Some st.2.

(** ** The partition engine *)

(** A key is the tuple of replies, one per guess; the [defaultdict(list)] is
    kept in insertion order. *)
Abbreviation Key := (list (list ascii)).
Abbreviation Bins := (list (list (list ascii) * list (list ascii))).

(** [d[k].append(target)] on a [defaultdict(list)]: an existing key keeps its
    place, a new key goes last. *)
Fixpoint append_to (k : Key) (target : Word) (d : Bins) : Bins :=
  match d with
  | [] => [(k, [target])]
  | (k', bin) :: d' =>
      if decide (k' = k) then (k', bin ++ [target]) :: d'
      else (k', bin) :: append_to k target d'
  end.

(** [d.values()] *)
Definition values {K V : Type} (d : list (K * V)) : list V := d.*2.

(** [tuple(reply_for(guess, target) for guess in guesses)] *)
Definition replies_of (guesses : list Word) (target : Word) : option Key :=
  mapM (λ guess, reply_for guess target) guesses.

Definition partition (guesses : list Word) (targets : list Word) : option Bins :=
  foldM (λ d target, replies ← replies_of guesses target;
                     Some (append_to replies target d))
        [] targets.

(** ** The win verifier *)

(** Python's [all] over a generator whose items may raise: it stops at the
    first false item, and an item that is never reached is never computed. *)
Fixpoint allM {A : Type} (f : A → option bool) (l : list A) : option bool :=
  match l with
  | [] => Some true
  | x :: l' => f x ≫= λ b : bool, if b then allM f l' else Some false
  end.

Definition can_win_bin (guess : Word) (bin : list Word) : option bool :=
  p ← partition [guess] bin;
  allM (λ bin5, Some (bool_decide (length bin5 = 1))) (values p).

Definition can_win (guesses : list Word) (targets : list Word) : option bool :=
  p ← partition guesses targets;
  allM (λ bin, if bool_decide (length bin < 2) then Some true
               else allM (λ w, can_win_bin w bin) bin)
       (values p).


(** The verifier in the words of the specification: every bin has at most one
    word, or every word of the bin splits the bin into singletons. *)
Definition splits_into_singletons (w : Word) (bin : list Word) : Prop :=
  ∃ p5, partition [w] bin = Some p5 ∧ ∀ bin5, bin5 ∈ values p5 → length bin5 = 1.

Definition can_win_spec (guesses : list Word) (targets : list Word) : Prop :=
  ∃ p, partition guesses targets = Some p ∧
    ∀ bin, bin ∈ values p →
      length bin ≤ 1 ∨ ∀ w, w ∈ bin → splits_into_singletons w bin.

(** ** Bin statistics *)

(** [Counter(iterable)] over replies, in insertion order. *)
Fixpoint tally (r : Reply) (ctr : list (list ascii * Z)) : list (list ascii * Z) :=
  match ctr with
  | [] => [(r, 1%Z)]
  | (r', n) :: ctr' =>
      if decide (r' = r) then (r', (n + 1)%Z) :: ctr'
      else (r', n) :: tally r ctr'
  end.







Section Statistics.
(** The global word list. *)
Variable words : list Word.

Definition bin_sizes (guess : Word) : option (list Z) :=
  ctr ← foldM (λ ctr target, r ← reply_for guess target; Some (tally r ctr))
              [] words;
  Some (values ctr).

(** [bin_sizes(guess).count(1)] *)
Definition wins (guess : Word) : option nat :=
  sizes ← bin_sizes guess;
  Some (length (filter (λ n, n = 1%Z) sizes)).


End Statistics.

(** ** The candidate generator [disjoint_words] *)

(** [set(w)] *)
Definition set_of (w : Word) : gset ascii := list_to_set w.

(** The [for w in words] loop of [disjoint_words], given the recursive call
    [rest] on a smaller letter budget. *)
Fixpoint scan (rest : gset ascii → option (list Word)) (letters : gset ascii)
    (ws : list Word) : option (list Word) :=
  match ws with
  | [] => None
  | w :: ws' =>
      let wletters := set_of w in
      if decide (wletters ⊆ letters ∧ size wletters = 5) then
        match rest (letters ∖ wletters) with
        | Some r => Some (w :: r)
        | None => scan rest letters ws'
        end
      else scan rest letters ws'
  end.

(** The same loop when the recursive call may run out of fuel (outer [None]). *)
Fixpoint scan_fuel (rest : gset ascii → option (option (list Word)))
    (letters : gset ascii) (ws : list Word) : option (option (list Word)) :=
  match ws with
  | [] => Some None
  | w :: ws' =>
      let wletters := set_of w in
      if decide (wletters ⊆ letters ∧ size wletters = 5) then
        match rest (letters ∖ wletters) with
        | None => None
        | Some (Some r) => Some (Some (w :: r))
        | Some None => scan_fuel rest letters ws'
        end
      else scan_fuel rest letters ws'
  end.

(** The recursion of [disjoint_words] is on a shrinking letter budget, not on
    [n] (which may be negative), so it is unrolled [fuel] times; the outer
    [None] means that the fuel ran out, the inner one is Python's [None]. *)
Fixpoint disjoint_words_fuel (fuel : nat) (n : Z) (words : list Word)
    (letters : gset ascii) : option (option (list Word)) :=
  if decide (n = 0%Z) then Some (Some [])
  else match fuel with
       | 0 => None
       | S fuel' =>
           scan_fuel (disjoint_words_fuel fuel' (n - 1)%Z words) letters words
       end.

(** Each call removes five letters from the budget, so [size letters + 1]
    unrollings always suffice ([disjoint_words_fuel_enough] below). *)
Definition disjoint_words (n : Z) (words : list Word) (letters : gset ascii)
  : option (list Word) :=
  mjoin (disjoint_words_fuel (S (size letters)) n words letters).

(** [set('ABCDEFGHIKLMNOPRSTUVWY')] *)
Definition letters : gset ascii := set_of (str "ABCDEFGHIKLMNOPRSTUVWY").

(** ** Measures used in the statements *)

(** Number of [Green] symbols of a reply. *)
Definition hits (r : Reply) : nat := length (filter (λ m, m = Green) r).

(** Number of positions [i] with [g[i] == t[i]]. *)
Definition matches (g t : Word) : nat :=
  length (filter (λ p, p.1 = p.2) (zip g t)).

(** Number of positions [i] with [g[i] == c] that the reply [r] marks
    [Green] or [Yellow]. *)
Definition marked (c : ascii) (g : Word) (r : Reply) : nat :=
  length (filter (λ p, p.1 = c ∧ (p.2 = Green ∨ p.2 = Yellow)) (zip g r)).

(** Number of occurrences of [c] in [t]. *)
Definition occurrences (c : ascii) (t : Word) : nat :=
  length (filter (λ x, x = c) t).

(** ** The encoder as a recursion over the five aligned letter pairs *)

(** The counter of the target letters of the unmatched pairs. *)
Fixpoint unmatched_pairs (c : gmap ascii Z) (ps : list (ascii * ascii))
  : gmap ascii Z :=
  match ps with
  | [] => c
  | (g, t) :: ps' =>
      unmatched_pairs (if decide (g ≠ t) then counter_add c t else c) ps'
  end.

(** The marks of the pairs, given the counter of letters still to be found. *)
Fixpoint mark_pairs (c : gmap ascii Z) (ps : list (ascii * ascii)) : list ascii :=
  match ps with
  | [] => []
  | (g, t) :: ps' =>
      if decide (g = t) then Green :: mark_pairs c ps'
      else if decide (0 < count_of c g)%Z
           then Yellow :: mark_pairs (counter_dec c g) ps'
           else Miss :: mark_pairs c ps'
  end.

Definition encode (ps : list (ascii * ascii)) : list ascii :=
  mark_pairs (unmatched_pairs ∅ ps) ps.

(** The first five letters of the guess paired with those of the target. *)
Definition pairs5 (g t : Word) : list (ascii * ascii) :=
  zip (take 5 g) (take 5 t).

(** ** Invariants and specifications used in the proofs *)

(** The mark of the first pass for one letter pair. *)
Definition mark1 (p : ascii * ascii) : ascii :=
  if decide (p.1 = p.2) then Green else Miss.

(** Every word of a bin has the bin's key as its tuple of replies. *)
Definition keyed (guesses : list Word) (d : Bins) : Prop :=
  Forall (λ kb, Forall (λ w, replies_of guesses w = Some kb.1) kb.2) d.

(** What the loop of [partition] maintains. *)
Definition well_binned (guesses : list Word) (d : Bins) : Prop :=
  NoDup d.*1 ∧ keyed guesses d ∧ Forall (λ kb, kb.2 ≠ []) d.

(** Every bin holds, in corpus order, the words seen so far that have the
    bin's key, and every word seen so far has its key among the bins. *)
Definition in_order (guesses : list Word) (seen : list Word) (d : Bins) : Prop :=
  Forall (λ kb, kb.2 = filter (λ t, replies_of guesses t = Some kb.1) seen) d ∧
  ∀ k, k ∉ d.*1 → filter (λ t, replies_of guesses t = Some k) seen = [].

(** The size of a bin, as a Python integer. *)
Definition bin_size (bin : list Word) : Z := Z.of_nat (length bin).

(** The counter of replies lists the bins of the single-guess partition,
    each with its size. *)
Definition counts_bins (ctr : list (list ascii * Z)) (d : Bins) : Prop :=
  Forall2 (λ rn kb, kb.1 = [rn.1] ∧ rn.2 = bin_size kb.2) ctr d.

(** The letter test of the loop. *)
Definition fits (letters : gset ascii) (w : Word) : Prop :=
  set_of w ⊆ letters ∧ size (set_of w) = 5.

(** The words of [l], in order, each fit the budget left by the words before
    it and come from the pool. *)
Fixpoint chosen (pool : list Word) (budget : gset ascii) (l : list Word) : Prop :=
  match l with
  | [] => True
  | w :: l' => w ∈ pool ∧ fits budget w ∧ chosen pool (budget ∖ set_of w) l'
  end.

(** The budget available to the word at position [i] of [l]. *)
Definition level_budget (budget : gset ascii) (l : list Word) (i : nat)
  : gset ascii :=
  budget ∖ ⋃ (set_of <$> take i l).

(** A feasible word-set, whatever the order it is found in: [n] words of the
    pool, each of five distinct letters of the budget, no letter shared by
    two of them. *)
Definition feasible (n : Z) (pool : list Word) (budget : gset ascii)
    (l : list Word) : Prop :=
  Z.of_nat (length l) = n ∧
  (∀ w, w ∈ l → w ∈ pool ∧ fits budget w) ∧
  (∀ i j w1 w2, i ≠ j → l !! i = Some w1 → l !! j = Some w2 →
                set_of w1 ## set_of w2).

(** The eight example words of the notebook. *)
Definition few : list Word :=
  map str ["HELLO"; "WORLD"; "CELLO"; "ALLEY"; "HEAVY"; "HEART"; "ALLAY"; "LILAC"]%string.

(** ** Further measures of a reply *)

(** Number of positions [i] with [g[i] == c] that the reply [r] marks
    [Yellow]. *)
Definition yellows_on (c : ascii) (g : Word) (r : Reply) : nat :=
  length (filter (λ p, p.1 = c ∧ p.2 = Yellow) (zip g r)).

(** Among the first five positions, the number of those where the guess holds
    [c] and differs from the target, and the number of those where the target
    holds [c] and differs from the guess. *)
Definition misplaced_in_guess (c : ascii) (g t : Word) : nat :=
  length (filter (λ p, p.1 ≠ p.2 ∧ p.1 = c) (pairs5 g t)).

Definition misplaced_in_target (c : ascii) (g t : Word) : nat :=
  length (filter (λ p, p.1 ≠ p.2 ∧ p.2 = c) (pairs5 g t)).

(** ** Ranking: [sorted], [top] and [bot] *)

(** Python's [sorted] is a stable sort that compares with [<] only; the
    result of a stable sort is determined by the keys, and it is computed
    here by stable insertion: an element goes before the first element that
    is not strictly smaller. *)
Fixpoint insert_stable {C B : Type} (lt : C → C → bool) (x : C * B)
    (l : list (C * B)) : list (C * B) :=
  match l with
  | [] => [x]
  | y :: l' => if lt y.1 x.1 then y :: insert_stable lt x l' else x :: y :: l'
  end.

Definition stable_sort {C B : Type} (lt : C → C → bool) (l : list (C * B))
  : list (C * B) :=
  foldr (insert_stable lt) [] l.

(** [sorted(items, key=key, reverse=reverse)]: the key of every item is
    computed once, in order, and may raise; with [reverse] the elements are
    sorted as if each comparison were reversed, which keeps the sort
    stable. *)
Definition sorted {A C : Type} (lt : C → C → bool) (reverse : bool)
    (key : A → option C) (items : list A) : option (list A) :=
  decorated ← mapM (λ x, c ← key x; Some (c, x)) items;
  Some (stable_sort (if reverse then flip lt else lt) decorated).*2.

(** The slice [l[:n]]; a negative [n] counts from the end. *)
Definition py_prefix {B : Type} (n : Z) (l : list B) : list B :=
  if decide (0 ≤ n)%Z then take (Z.to_nat n) l
  else take (length l - Z.to_nat (- n)) l.

(** [d[k] = v] on a [dict]: an existing key keeps its place. *)
Fixpoint dict_set {A V : Type} `{EqDecision A} (k : A) (v : V)
    (d : list (A * V)) : list (A * V) :=
  match d with
  | [] => [(k, v)]
  | (k', v') :: d' =>
      if decide (k' = k) then (k', v) :: d' else (k', v') :: dict_set k v d'
  end.

(** [ordered lt p q]: the key of [q] is not smaller than the key of [p]. *)
Definition ordered {C B : Type} (lt : C → C → bool) (p q : C * B) : Prop :=
  lt q.1 p.1 = false.

(** [tied lt a b]: neither key is smaller than the other. *)
Definition tied {C : Type} (lt : C → C → bool) (a b : C) : Prop :=
  lt a b = false ∧ lt b a = false.

Section Ranking.
Context {A K : Type} `{EqDecision A}.
(** Python's [<] on the values of the key function and on the items. *)
Variable key_lt : K → K → bool.
Variable item_lt : A → A → bool.

(** [key(item)]; the default [key=None] is not callable and raises
    [TypeError]. *)
Definition call_key (key : option (A → option K)) (item : A) : option K :=
  match key with
  | Some k => k item
  | None => None
  end.

(** [sorted(items, key=key, reverse=reverse)] where [key] may be [None]: the
    items are then compared themselves. *)
Definition sorted_items (reverse : bool) (key : option (A → option K))
    (items : list A) : option (list A) :=
  match key with
  | Some k => sorted key_lt reverse k items
  | None => sorted item_lt reverse Some items
  end.

(** [{item: key(item) for item in chosen}] *)
Definition ranking (key : option (A → option K)) (chosen : list A)
  : option (list (A * K)) :=
  foldM (λ d item, v ← call_key key item; Some (dict_set item v d)) [] chosen.

Definition top (n : Z) (items : list A) (key : option (A → option K))
  : option (list (A * K)) :=
  ranked ← sorted_items true key items;
  ranking key (py_prefix n ranked).

Definition bot (n : Z) (items : list A) (key : option (A → option K))
  : option (list (A * K)) :=
  ranked ← sorted_items false key items;
  ranking key (py_prefix n ranked).
End Ranking.

(** ** The report *)

(** [sep.join(ws)] *)
Fixpoint join (sep : list ascii) (ws : list (list ascii)) : list ascii :=
  match ws with
  | [] => []
  | [w] => w
  | w :: ws' => w ++ sep ++ join sep ws'
  end.

(** [Counter(iterable)] over integers, in insertion order. *)
Fixpoint tally_size (n : Z) (ctr : list (Z * Z)) : list (Z * Z) :=
  match ctr with
  | [] => [(n, 1%Z)]
  | (n', c) :: ctr' =>
      if decide (n' = n) then (n', (c + 1)%Z) :: ctr'
      else (n', c) :: tally_size n ctr'
  end.

(** The lines that [report] prints, by the values that go into them; the
    layout of the text is left out. [BinLine bin fails] is the line of a bin
    of more than two words; the note ["*** ... will not work!"] is printed
    when the string [fails] is not empty. *)
Inductive Line : Type :=
  | VerdictLine (guesses : list (list ascii)) (winner : bool)
  | CountsLine (counts : list (Z * Z))
  | HeaderLine
  | BinLine (bin : list (list ascii)) (fails : list ascii).

(** [w for w in bin if not can_win_bin(w, bin)] over the words [ws] of the
    bin [bin]. *)
Fixpoint failing (bin : list Word) (ws : list Word) : option (list Word) :=
  match ws with
  | [] => Some []
  | w :: ws' =>
      can_win_bin w bin ≫= λ b : bool,
      rest ← failing bin ws';
      Some (if b then rest else w :: rest)
  end.

(** The loop over the bins: the lines printed, and whether the loop ended
    ([Some]) or an exception escaped ([None]) after these lines. *)
Fixpoint report_bins (bins : list (list Word)) : list Line * option unit :=
  match bins with
  | [] => ([], Some ())
  | bin :: bins' =>
      if decide (2 < length bin) then
        match failing bin bin with
        | None => ([], None)
        | Some fs =>
            let rest := report_bins bins' in
            (BinLine bin (join (str ", ") fs) :: rest.1, rest.2)
        end
      else report_bins bins'
  end.

Section Report.
(** The global word list. *)
Variable words : list Word.

(** [report(guesses)]: the printed lines, and the returned [guesses] unless
    an exception escaped. *)
Definition report (guesses : list Word) : list Line * option (list Word) :=
  match partition guesses words with
  | None => ([], None)
  | Some p =>
      let bins := values p in
      let counts := foldl (λ ctr bin, tally_size (bin_size bin) ctr) [] bins in
      match can_win guesses words with
      | None => ([], None)
      | Some winner =>
          let lines := report_bins bins in
          ([VerdictLine guesses winner; CountsLine counts; HeaderLine]
             ++ lines.1,
           _ ← lines.2; Some guesses)
      end
  end.
End Report.

(** ** Conway's Game of Life *)

(** A [Cell] is a pair of integers and a [World] is a set of cells. *)
Abbreviation Cell := (Z * Z)%type.
Abbreviation World := (gset (Z * Z)).

(** [[(x + dx, y + dy) for dx in (-1, 0, 1) for dy in (-1, 0, 1)
      if not (dx == 0 == dy)]] *)
Definition neighbors (cell : Cell) : list Cell :=
  let '(x, y) := cell in
  dx ← [-1; 0; 1]%Z; dy ← [-1; 0; 1]%Z;
  if decide (¬ (dx = 0 ∧ 0 = dy))%Z then [(x + dx, y + dy)%Z] else [].

(** A [Counter] of cells: a missing cell counts [0]. *)
Definition cell_count (c : gmap (Z * Z) Z) (cell : Cell) : Z :=
  default 0%Z (c !! cell).

(** [Counter(xy for cell in world for xy in neighbors(cell))]; the order in
    which the set is traversed does not show in the counter as a mapping. *)
Definition neighbor_counts (world : World) : gmap (Z * Z) Z :=
  foldl (λ c xy, <[xy := (cell_count c xy + 1)%Z]> c) ∅
        (elements world ≫= neighbors).

(** [{cell for cell, count in neighbor_counts(world).items()
      if count == 3 or (count == 2 and cell in world)}] *)
Definition next_generation (world : World) : World :=
  list_to_set
    (fst <$> filter (λ item, item.2 = 3%Z ∨ (item.2 = 2%Z ∧ item.1 ∈ world))
                    (map_to_list (neighbor_counts world))).

(** The second version of [next_generation], from the end of the notebook:
    [set(filter(live, counts))] with
    [live(cell) = counts[cell] == 3 or (counts[cell] == 2 and cell in world)]. *)
Definition next_generation_kata (world : World) : World :=
  let counts := neighbor_counts world in
  list_to_set
    (filter (λ cell, cell_count counts cell = 3%Z ∨
                     (cell_count counts cell = 2%Z ∧ cell ∈ world))
            (map_to_list counts).*1).

(** [life(world, n)]: the worlds that the generator yields, in order;
    [range(n)] is empty for a negative [n]. *)
Fixpoint generations (world : World) (n : nat) : list World :=
  match n with
  | 0 => []
  | S n' => world :: generations (next_generation world) n'
  end.

Definition life (world : World) (n : Z) : list World :=
  generations world (Z.to_nat n).

(** [{(x + dx, y + dy) for (x, y) in cells}] *)
Definition slide (cells : World) (dx dy : Z) : World :=
  set_map (λ cell : Z * Z, (cell.1 + dx, cell.2 + dy)%Z) cells.

(** The world of the notebook's first example. *)
Definition world0 : World := {[ (3, 1); (1, 2); (1, 3); (2, 3) ]}%Z.

(** *** Pictures and shapes *)

Definition LIVE : ascii := "@"%char.
Definition EMPTY : ascii := "."%char.
Definition PAD : ascii := " "%char.

(** The newline character. *)
Definition NL : ascii := "010"%char.

(** [range(n)]: empty for a negative [n]. *)
Definition range (n : Z) : list Z := Z.of_nat <$> seq 0 (Z.to_nat n).

(** [picture(world, Xs, Ys)], where
    [row(y) = PAD.join(LIVE if (x, y) in world else EMPTY for x in Xs)]. *)
Definition picture (world : World) (Xs Ys : list Z) : list ascii :=
  let row (y : Z) :=
    join [PAD] ((λ x, if decide ((x, y) ∈ world) then [LIVE] else [EMPTY]) <$> Xs) in
  join [NL] (row <$> Ys).

(** Python's [str.splitlines()]: a line ends at a line feed, a carriage
    return (with the line feed that follows it, if any), a vertical tab, a form
    feed, a file, group or record separator or a next-line character; the line
    boundaries are dropped, and there is no empty last line after a final
    boundary.  (Characters are code points below 256.) *)
Definition line_break (c : ascii) : bool :=
  bool_decide (c ∈ ["010"; "011"; "012"; "013"; "028"; "029"; "030"; "133"]%char).

Fixpoint splitlines_from (cur s : list ascii) : list (list ascii) :=
  match s with
  | [] => match cur with [] => [] | _ => [cur] end
  | c :: s' =>
      if line_break c then
        cur :: match s' with
               | c' :: s'' =>
                   if bool_decide (c = "013"%char ∧ c' = "010"%char)
                   then splitlines_from [] s''
                   else splitlines_from [] s'
               | [] => []
               end
      else splitlines_from (cur ++ [c]) s'
  end.

Definition splitlines (s : list ascii) : list (list ascii) :=
  splitlines_from [] s.

(** [enumerate(l)] *)
Definition enumerate {A} (l : list A) : list (Z * A) :=
  imap (λ i a, (Z.of_nat i, a)) l.

(** [s.replace(old, new)] for a pattern [old] of one character. *)
Definition replace_char (old : ascii) (new s : list ascii) : list ascii :=
  s ≫= λ c, if decide (c = old) then new else [c].

(** [shape(picture, dx, dy)]; the source's defaults are [dx=3, dy=3]. *)
Definition shape (picture : list ascii) (dx dy : Z) : World :=
  let cells : World :=
    list_to_set
      (enumerate (splitlines picture) ≫= λ '(y, row),
       enumerate (replace_char PAD [] row) ≫= λ '(x, c),
       if decide (c = LIVE) then [(x, y)] else []) in
  slide cells dx dy.

(** The rows of a text without its last row when that row is empty: what
    [splitlines] gives back of rows joined by newlines (specification side). *)
Fixpoint drop_last_empty (rows : list (list ascii)) : list (list ascii) :=
  match rows with
  | [] => []
  | [r] => match r with [] => [] | _ => [r] end
  | r :: rows' => r :: drop_last_empty rows'
  end.

(** The number of live neighbours of a cell, counted directly; the
    specification side of [neighbor_counts]. *)
Definition live_neighbors (world : World) (cell : Cell) : nat :=
  length (filter (λ c, c ∈ world) (neighbors cell)).

(** * Examples from the notebook *)

Example reply_hello_cello :
  reply_for (str "HELLO") (str "CELLO") = Some (str ".GGGG").
Proof. vm_compute. reflexivity. Qed.

Example reply_hello_world :
  reply_for (str "HELLO") (str "WORLD") = Some (str "...GY").
Proof. vm_compute. reflexivity. Qed.

Example reply_short_raises : reply_for (str "HELL") (str "CELLO") = None.
Proof. vm_compute. reflexivity. Qed.

Example partition_few :
  partition [str "HELLO"; str "WORLD"] few =
  Some [([str "GGGGG"; str ".Y.G."], [str "HELLO"]);
        ([str "...GY"; str "GGGGG"], [str "WORLD"]);
        ([str ".GGGG"; str ".Y.G."], [str "CELLO"]);
        ([str ".YGY."; str "...Y."], [str "ALLEY"]);
        ([str "GG..."; str "....."], [str "HEAVY"]);
        ([str "GG..."; str "..Y.."], [str "HEART"]);
        ([str "..GY."; str "...Y."], [str "ALLAY"; str "LILAC"])].
Proof. vm_compute. reflexivity. Qed.

Example bin_sizes_few :
  bin_sizes few (str "HELLO") = Some [1; 1; 1; 1; 2; 2]%Z.
Proof. vm_compute. reflexivity. Qed.

Example disjoint_words_small :
  disjoint_words 2 (map str ["ABHOR"; "BLEAT"; "HELLO"; "CLEFT"]%string) letters
  = Some [str "ABHOR"; str "CLEFT"].
Proof. vm_compute. reflexivity. Qed.

Example can_win_few : can_win [str "HELLO"] few = Some true.
Proof. vm_compute. reflexivity. Qed.

(** * The encoder *)

Lemma drop_lookup_cons {A : Type} (l : list A) (k : nat) :
  k < length l → ∃ x, l !! k = Some x ∧ drop k l = x :: drop (S k) l.
Proof.
  intros Hk. destruct (lookup_lt_is_Some_2 l k Hk) as [x Hx].
  exists x. split; [done|]. by apply drop_S.
Qed.

Lemma first_pass_seq (g t : Word) (n k : nat) :
  k + n ≤ length g → k + n ≤ length t →
  mapM (λ i, a ← g !! i; b ← t !! i;
             Some (if decide (a = b) then Green else Miss)) (seq k n)
  = Some (map mark1 (zip (take n (drop k g)) (take n (drop k t)))).
Proof.
  revert k. induction n as [|n IH]; intros k Hg Ht; [done|].
  destruct (drop_lookup_cons g k) as (a & Ha & Hda); [lia|].
  destruct (drop_lookup_cons t k) as (b & Hb & Hdb); [lia|].
  rewrite Hda, Hdb. cbn [seq take zip zip_with map mapM].
  rewrite Ha, Hb. cbn. rewrite IH by lia. done.
Qed.

Lemma unmatched_seq (g t : Word) (n k : nat) (c : gmap ascii Z) :
  k + n ≤ length g → k + n ≤ length t →
  foldM (λ c i, a ← g !! i; b ← t !! i;
                Some (if decide (a ≠ b) then counter_add c b else c))
        c (seq k n)
  = Some (unmatched_pairs c (zip (take n (drop k g)) (take n (drop k t)))).
Proof.
  revert k c. induction n as [|n IH]; intros k c Hg Ht; [done|].
  destruct (drop_lookup_cons g k) as (a & Ha & Hda); [lia|].
  destruct (drop_lookup_cons t k) as (b & Hb & Hdb); [lia|].
  rewrite Hda, Hdb. cbn [seq take zip zip_with foldM unmatched_pairs].
  rewrite Ha, Hb. cbn. by rewrite IH by lia.
Qed.

Lemma yellow_step_middle (g : Word) (c : gmap ascii Z) (done rest : list ascii)
    (m a : ascii) :
  g !! length done = Some a →
  yellow_step g (c, done ++ m :: rest) (length done)
  = Some (if decide (m = Miss ∧ (0 < count_of c a)%Z)
          then (counter_dec c a, done ++ Yellow :: rest)
          else (c, done ++ m :: rest)).
Proof.
  intros Hga. unfold yellow_step. cbn [fst snd].
  rewrite list_lookup_middle by done. cbn [mbind option_bind].
  destruct (decide (m = Miss)) as [->|Hm].
  - rewrite Hga. cbn [mbind option_bind].
    destruct (decide (0 < count_of c a)%Z).
    + rewrite decide_True by done. do 2 f_equal.
      replace (length done) with (length done + 0) at 1 by lia.
      by rewrite insert_app_r.
    + rewrite decide_False by tauto. done.
  - rewrite decide_False by tauto. done.
Qed.

Lemma yellow_loop (g : Word) (ps : list (ascii * ascii)) :
  ∀ (done : list ascii) (c : gmap ascii Z) (gpre gsuf : list ascii),
    g = gpre ++ ps.*1 ++ gsuf → length gpre = length done →
    ∃ c', foldM (yellow_step g) (c, done ++ map mark1 ps)
                (seq (length done) (length ps))
          = Some (c', done ++ mark_pairs c ps).
Proof.
  induction ps as [|[a b] ps IH]; intros done c gpre gsuf Hg Hlen.
  { exists c. done. }
  assert (Hga : g !! length done = Some a).
  { rewrite Hg, <- Hlen. cbn. by rewrite list_lookup_middle. }
  assert (Hnext : ∀ m c1, ∃ c',
    foldM (yellow_step g) (c1, done ++ m :: map mark1 ps)
          (seq (S (length done)) (length ps))
    = Some (c', done ++ m :: mark_pairs c1 ps)).
  { intros m c1.
    destruct (IH (done ++ [m]) c1 (gpre ++ [a]) gsuf) as [c' Hc'].
    - rewrite Hg. by rewrite <- !app_assoc.
    - rewrite !length_app. simpl. lia.
    - exists c'. rewrite length_app in Hc'. simpl in Hc'.
      rewrite Nat.add_1_r, <- !app_assoc in Hc'. exact Hc'. }
  cbn [map length seq foldM mark_pairs].
  rewrite (yellow_step_middle g c done _ _ a Hga). cbn [mbind option_bind].
  destruct (decide (a = b)) as [Hab|Hab].
  - replace (mark1 (a, b)) with Green by (unfold mark1; by rewrite decide_True).
    rewrite decide_False by (intros [? _]; done). apply Hnext.
  - replace (mark1 (a, b)) with Miss by (unfold mark1; by rewrite decide_False).
    destruct (decide (0 < count_of c a)%Z).
    + rewrite decide_True by done. apply Hnext.
    + rewrite decide_False by tauto. apply Hnext.
Qed.

Lemma pairs5_length (g t : Word) :
  5 ≤ length g → 5 ≤ length t → length (pairs5 g t) = 5.
Proof.
  intros Hg Ht. unfold pairs5. rewrite length_zip, !length_take. lia.
Qed.

Lemma pairs5_fst (g t : Word) :
  5 ≤ length g → 5 ≤ length t → (pairs5 g t).*1 = take 5 g.
Proof.
  intros Hg Ht. unfold pairs5. apply fst_zip. rewrite !length_take. lia.
Qed.

(** On words of five or more letters the encoder returns the marks of the
    first five letter pairs. *)
Lemma reply_for_encode (g t : Word) :
  5 ≤ length g → 5 ≤ length t → reply_for g t = Some (encode (pairs5 g t)).
Proof.
  intros Hg Ht. unfold reply_for, first_pass, unmatched, range5.
  rewrite (first_pass_seq g t 5 0) by (simpl; lia).
  rewrite (unmatched_seq g t 5 0) by (simpl; lia).
  rewrite !drop_0. fold (pairs5 g t). cbn [mbind option_bind].
  destruct (yellow_loop g (pairs5 g t) [] (unmatched_pairs ∅ (pairs5 g t))
              [] (drop 5 g)) as [c' Hc'].
  - rewrite pairs5_fst by done. simpl. by rewrite take_drop.
  - done.
  - rewrite pairs5_length in Hc' by done. simpl in Hc'. simpl.
    rewrite Hc'. done.
Qed.

(** A guess or a target of fewer than five letters raises [IndexError]. *)
Lemma reply_for_short (g t : Word) :
  length g < 5 ∨ length t < 5 → reply_for g t = None.
Proof.
  intros Hshort. unfold reply_for.
  assert (first_pass g t = None) as ->; [|done].
  unfold first_pass. apply eq_None_not_Some. intros [r Hr].
  apply mapM_Some_1 in Hr.
  destruct (Forall2_lookup_l _ _ _ 4 4 Hr eq_refl) as (y & _ & Hy).
  destruct (g !! 4) as [a|] eqn:Ha; [|done].
  destruct (t !! 4) as [b|] eqn:Hb; [|done].
  apply lookup_lt_Some in Ha, Hb. lia.
Qed.

Lemma reply_for_is_Some (g t : Word) :
  is_Some (reply_for g t) ↔ 5 ≤ length g ∧ 5 ≤ length t.
Proof.
  split.
  - intros Hs. destruct (decide (5 ≤ length g ∧ 5 ≤ length t)); [done|].
    rewrite reply_for_short in Hs by lia. by destruct Hs.
  - intros [Hg Ht]. rewrite reply_for_encode by done. eauto.
Qed.

(** ** Counting the marks *)

Lemma count_of_counter_add (c : gmap ascii Z) (k x : ascii) :
  count_of (counter_add c k) x
  = if decide (k = x) then (count_of c x + 1)%Z else count_of c x.
Proof.
  unfold counter_add, count_of at 1. rewrite lookup_insert.
  by destruct (decide (k = x)) as [->|].
Qed.

Lemma count_of_counter_dec (c : gmap ascii Z) (k x : ascii) :
  count_of (counter_dec c k) x
  = if decide (k = x) then (count_of c x - 1)%Z else count_of c x.
Proof.
  unfold counter_dec, count_of at 1. rewrite lookup_insert.
  by destruct (decide (k = x)) as [->|].
Qed.

Lemma count_of_empty (x : ascii) : count_of ∅ x = 0%Z.
Proof. unfold count_of. by rewrite lookup_empty. Qed.

Lemma hits_mark_pairs (c : gmap ascii Z) (ps : list (ascii * ascii)) :
  hits (mark_pairs c ps) = length (filter (λ p, p.1 = p.2) ps).
Proof.
  unfold hits. revert c.
  induction ps as [|[a b] ps IH]; intros c; [done|].
  cbn [mark_pairs]. rewrite (filter_cons _ (a, b)). cbn [fst snd].
  destruct (decide (a = b)).
  - rewrite filter_cons, decide_True by done. simpl. by rewrite IH.
  - destruct (decide (0 < count_of c a)%Z);
      rewrite filter_cons, decide_False by done; apply IH.
Qed.

Lemma mark_pairs_length (c : gmap ascii Z) (ps : list (ascii * ascii)) :
  length (mark_pairs c ps) = length ps.
Proof.
  revert c. induction ps as [|[a b] ps IH]; intros c; [done|].
  cbn [mark_pairs]. repeat case_decide; simpl; by rewrite IH.
Qed.

Lemma mark_pairs_all_green (c : gmap ascii Z) (ps : list (ascii * ascii)) :
  mark_pairs c ps = replicate (length ps) Green ↔ Forall (λ p, p.1 = p.2) ps.
Proof.
  revert c. induction ps as [|[a b] ps IH]; intros c.
  { split; [by constructor|done]. }
  cbn [mark_pairs length replicate]. rewrite Forall_cons. cbn [fst snd].
  destruct (decide (a = b)) as [Hab|Hab].
  - split.
    + intros [= H]. split; [done|]. by apply (IH c).
    + intros [_ H]. f_equal. by apply IH.
  - split; [|tauto]. by destruct (decide (0 < count_of c a)%Z).
Qed.

Lemma zip_diag_eq (g t : list ascii) :
  length g = length t → Forall (λ p : ascii * ascii, p.1 = p.2) (zip g t) ↔ g = t.
Proof.
  revert t. induction g as [|a g IH]; intros [|b t] Hlen; simplify_eq/=.
  { split; [done|by constructor]. }
  rewrite Forall_cons, IH by done. cbn [fst snd].
  split; [by intros [-> ->]|by intros [= -> ->]].
Qed.

Lemma count_of_unmatched_pairs (c : gmap ascii Z) (ps : list (ascii * ascii))
    (x : ascii) :
  count_of (unmatched_pairs c ps) x
  = (count_of c x + Z.of_nat (length (filter (λ p, p.1 ≠ p.2 ∧ p.2 = x) ps)))%Z.
Proof.
  revert c. induction ps as [|[a b] ps IH]; intros c; [simpl; lia|].
  cbn [unmatched_pairs]. rewrite IH, filter_cons. cbn [fst snd].
  destruct (decide (a ≠ b)).
  - rewrite count_of_counter_add. destruct (decide (b = x)).
    + rewrite decide_True by done. cbn [length]. lia.
    + rewrite decide_False by tauto. done.
  - rewrite decide_False by tauto. done.
Qed.

Lemma marked_mark_pairs (x : ascii) (c : gmap ascii Z) (ps : list (ascii * ascii)) :
  marked x ps.*1 (mark_pairs c ps)
  ≤ length (filter (λ p, p.1 = p.2 ∧ p.2 = x) ps) + Z.to_nat (count_of c x).
Proof.
  unfold marked. revert c.
  induction ps as [|[a b] ps IH]; intros c; [simpl; lia|].
  cbn [mark_pairs fmap list_fmap fst]. rewrite (filter_cons _ (a, b)).
  cbn [fst snd].
  destruct (decide (a = b)) as [<-|Hab].
  - cbn [zip zip_with]. rewrite filter_cons. cbn [fst snd]. specialize (IH c).
    destruct (decide (a = x)).
    + rewrite !decide_True by auto. cbn [length]. lia.
    + rewrite !decide_False by tauto. lia.
  - rewrite (decide_False (P := a = b ∧ b = x)) by tauto.
    destruct (decide (0 < count_of c a)%Z).
    + cbn [zip zip_with]. rewrite filter_cons. cbn [fst snd].
      specialize (IH (counter_dec c a)). rewrite count_of_counter_dec in IH.
      destruct (decide (a = x)) as [->|].
      * rewrite decide_True by auto. cbn [length]. lia.
      * rewrite decide_False by tauto. lia.
    + cbn [zip zip_with]. rewrite filter_cons. cbn [fst snd].
      specialize (IH c).
      rewrite decide_False; [lia|]. intros [_ [?|?]]; done.
Qed.

Lemma filter_split_target (x : ascii) (ps : list (ascii * ascii)) :
  length (filter (λ p, p.1 = p.2 ∧ p.2 = x) ps)
  + length (filter (λ p, p.1 ≠ p.2 ∧ p.2 = x) ps)
  = occurrences x ps.*2.
Proof.
  unfold occurrences. induction ps as [|[a b] ps IH]; [done|].
  cbn [fmap list_fmap snd]. rewrite !filter_cons. cbn [fst snd].
  destruct (decide (b = x)).
  - destruct (decide (a = b)).
    + rewrite decide_True, decide_False by tauto. cbn [length]. lia.
    + rewrite decide_False, decide_True by tauto. cbn [length]. lia.
  - rewrite !decide_False by tauto. lia.
Qed.

Lemma occurrences_take (x : ascii) (n : nat) (t : list ascii) :
  occurrences x (take n t) ≤ occurrences x t.
Proof.
  unfold occurrences. rewrite <- (take_drop n t) at 2.
  rewrite filter_app, length_app. lia.
Qed.

Lemma marked_take (x : ascii) (g r : list ascii) :
  marked x g r = marked x (take (length r) g) r.
Proof. unfold marked. by rewrite zip_with_take_l. Qed.

(** The marks that the reply aligns with a letter are bounded by the
    occurrences of that letter among the first five letters of the target. *)
Lemma marked_encode (x : ascii) (g t : Word) :
  5 ≤ length g → 5 ≤ length t →
  marked x g (encode (pairs5 g t)) ≤ occurrences x (take 5 t).
Proof.
  intros Hg Ht. rewrite marked_take. unfold encode.
  rewrite mark_pairs_length, pairs5_length, <- (pairs5_fst g t) by done.
  etrans; [apply marked_mark_pairs|].
  rewrite count_of_unmatched_pairs, count_of_empty, Z.add_0_l, Nat2Z.id.
  rewrite filter_split_target. unfold pairs5.
  rewrite snd_zip by (rewrite !length_take; lia). done.
Qed.

Lemma pairs5_exact (g t : Word) :
  length g = 5 → length t = 5 → pairs5 g t = zip g t.
Proof.
  intros Hg Ht. unfold pairs5. by rewrite !take_ge by lia.
Qed.

(** On five-letter words the marks are all Green exactly for equal words. *)
Lemma encode_all_green (g t : Word) :
  length g = 5 → length t = 5 →
  encode (pairs5 g t) = str "GGGGG" ↔ g = t.
Proof.
  intros Hg Ht. rewrite pairs5_exact by done.
  assert (str "GGGGG" = replicate (length (zip g t)) Green) as ->.
  { rewrite length_zip, Hg, Ht. reflexivity. }
  unfold encode. rewrite mark_pairs_all_green. apply zip_diag_eq. lia.
Qed.

(** ** The claims about the encoder *)

(** C3 (letter-count conservation): for words [g] and [t] of equal length and
    every letter [c], whenever [reply_for g t] returns a reply, the number of
    positions holding [c] in [g] that the reply marks Green or Yellow is at
    most the number of occurrences of [c] in [t]. *)
Theorem reply_for_letter_count (g t : Word) (c : ascii) (r : Reply) :
  length g = length t → reply_for g t = Some r →
  marked c g r ≤ occurrences c t.
Proof.
  intros _ Hr.
  assert (5 ≤ length g ∧ 5 ≤ length t) as [Hg Ht].
  { apply reply_for_is_Some. eauto. }
  rewrite reply_for_encode in Hr by done. injection Hr as <-.
  etrans; [by apply marked_encode|]. apply occurrences_take.
Qed.

Lemma reply_for_letter_count_witness :
  length (str "HELLO") = length (str "ALLEY") ∧
  reply_for (str "HELLO") (str "ALLEY") = Some (str ".YGY.") ∧
  marked "L" (str "HELLO") (str ".YGY.") ≤ occurrences "L" (str "ALLEY").
Proof.
  split; [reflexivity|]. split; [vm_compute; reflexivity|].
  apply (reply_for_letter_count (str "HELLO") (str "ALLEY"));
    [reflexivity | vm_compute; reflexivity].
Defined.

(** C4 (literal scenario 2): [reply_for('HELLO', 'ALLEY')] is, in position
    order, Miss, Yellow, Green, Yellow, Miss, that is the string ['.YGY.']. *)
Theorem reply_hello_alley :
  reply_for (str "HELLO") (str "ALLEY") = Some [Miss; Yellow; Green; Yellow; Miss]
  ∧ [Miss; Yellow; Green; Yellow; Miss] = str ".YGY.".
Proof. split; vm_compute; reflexivity. Qed.

(** C5, as stated, fails on equal-length words of more than five letters:
    the encoder reads the first five positions only, so a match in the sixth
    position is not counted. *)
Lemma reply_for_hits_six_letters :
  length (str "AAAAAA") = length (str "BBBBBA") ∧
  reply_for (str "AAAAAA") (str "BBBBBA") = Some (str ".....") ∧
  hits (str ".....") = 0 ∧
  matches (str "AAAAAA") (str "BBBBBA") = 1 ∧
  hits (str ".....") ≠ matches (str "AAAAAA") (str "BBBBBA").
Proof. split_and!; [vm_compute; reflexivity..|vm_compute; lia]. Qed.

(** C5 (amended): for words [g] and [t] of five letters, [reply_for g t]
    returns a reply whose number of Green symbols is exactly the number of
    positions [i] with [g[i] == t[i]]. *)
Theorem reply_for_hits (g t : Word) :
  length g = 5 → length t = 5 →
  ∃ r, reply_for g t = Some r ∧ hits r = matches g t.
Proof.
  intros Hg Ht. exists (encode (pairs5 g t)). split.
  - apply reply_for_encode; lia.
  - unfold encode, matches. rewrite hits_mark_pairs.
    by rewrite pairs5_exact.
Qed.

Lemma reply_for_hits_witness :
  ∃ r, reply_for (str "HELLO") (str "CELLO") = Some r ∧
       hits r = matches (str "HELLO") (str "CELLO").
Proof. apply reply_for_hits; reflexivity. Defined.

(** C9: for words [g] and [t] of five letters, [reply_for g t] is the
    all-Green reply ['GGGGG'] exactly when [g = t]. *)
Theorem reply_for_all_green (g t : Word) :
  length g = 5 → length t = 5 →
  reply_for g t = Some (str "GGGGG") ↔ g = t.
Proof.
  intros Hg Ht. rewrite reply_for_encode by lia.
  rewrite <- (encode_all_green g t) by done.
  split; [by intros [= ->]|by intros ->].
Qed.

Lemma reply_for_all_green_witness :
  reply_for (str "HELLO") (str "HELLO") = Some (str "GGGGG")
  ↔ str "HELLO" = str "HELLO".
Proof. apply reply_for_all_green; reflexivity. Defined.

(** * The partition engine *)

Lemma append_to_values (k : Key) (t : Word) (d : Bins) :
  concat (values (append_to k t d)) ≡ₚ t :: concat (values d).
Proof.
  unfold values. induction d as [|[k' b] d IH]; [done|].
  cbn [append_to]. case_decide; cbn [fmap list_fmap snd concat].
  - rewrite <- app_assoc. cbn [app]. by rewrite <- Permutation_middle.
  - rewrite IH. by rewrite <- Permutation_middle.
Qed.

Lemma append_to_keys (k : Key) (t : Word) (d : Bins) :
  (append_to k t d).*1 = if decide (k ∈ d.*1) then d.*1 else d.*1 ++ [k].
Proof.
  induction d as [|[k' b] d IH]; cbn [append_to fmap list_fmap fst].
  { rewrite decide_False; [done|]. by intros ?%elem_of_nil. }
  destruct (decide (k' = k)) as [->|Hne]; cbn [fmap list_fmap fst].
  - rewrite decide_True; [done|]. by left.
  - fold (fmap (M := list) (@fst Key (list Word))). rewrite IH.
    destruct (decide (k ∈ d.*1)).
    + rewrite decide_True; [done|]. by right.
    + rewrite decide_False; [done|]. by intros [?|?]%elem_of_cons.
Qed.

Lemma append_to_NoDup (k : Key) (t : Word) (d : Bins) :
  NoDup d.*1 → NoDup (append_to k t d).*1.
Proof.
  intros Hd. rewrite append_to_keys. case_decide; [done|].
  apply NoDup_app. split_and!; [done| |apply NoDup_singleton].
  intros x Hx ->%list_elem_of_singleton. done.
Qed.

Lemma append_to_keyed (gs : list Word) (k : Key) (t : Word) (d : Bins) :
  replies_of gs t = Some k → keyed gs d → keyed gs (append_to k t d).
Proof.
  intros Hk. unfold keyed.
  induction d as [|[k' b] d IH]; intros Hd; cbn [append_to].
  { repeat constructor. done. }
  apply Forall_cons in Hd as [Hb Hd]. cbn [fst snd] in Hb.
  destruct (decide (k' = k)) as [->|Hne].
  - constructor; [|done]. cbn [fst snd]. apply Forall_app. split; [done|].
    by constructor.
  - constructor; [done|]. by apply IH.
Qed.

Lemma append_to_nonempty (k : Key) (t : Word) (d : Bins) :
  Forall (λ kb, kb.2 ≠ []) d → Forall (λ kb, kb.2 ≠ []) (append_to k t d).
Proof.
  induction d as [|[k' b] d IH]; intros Hd; cbn [append_to].
  { by repeat constructor. }
  apply Forall_cons in Hd as [Hb Hd].
  case_decide; constructor; auto. cbn [snd]. by destruct b.
Qed.

Lemma append_to_well_binned (gs : list Word) (k : Key) (t : Word) (d : Bins) :
  replies_of gs t = Some k → well_binned gs d → well_binned gs (append_to k t d).
Proof.
  intros Hk (Hnd & Hkeyed & Hne).
  split_and!; auto using append_to_NoDup, append_to_keyed, append_to_nonempty.
Qed.

Lemma partition_loop_inv (gs ts : list Word) :
  ∀ d d' : Bins,
    foldM (λ d target, replies ← replies_of gs target;
                       Some (append_to replies target d)) d ts = Some d' →
    well_binned gs d →
    well_binned gs d' ∧ concat (values d') ≡ₚ concat (values d) ++ ts.
Proof.
  induction ts as [|t ts IH]; intros d d' Hrun Hd; cbn [foldM] in Hrun.
  { injection Hrun as <-. by rewrite app_nil_r. }
  destruct (replies_of gs t) as [k|] eqn:Hk; [|done]. cbn in Hrun.
  destruct (IH _ _ Hrun) as [Hd' Hperm].
  { by apply append_to_well_binned. }
  split; [done|]. rewrite Hperm, append_to_values.
  by rewrite <- Permutation_middle.
Qed.

Lemma partition_well_binned (gs ts : list Word) (p : Bins) :
  partition gs ts = Some p → well_binned gs p ∧ concat (values p) ≡ₚ ts.
Proof.
  intros Hp. apply partition_loop_inv in Hp; [done|].
  split_and!; [apply NoDup_nil_2|constructor|constructor].
Qed.

Lemma well_binned_disjoint (gs : list Word) (d : Bins) (i j : nat)
    (b1 b2 : list Word) (w : Word) :
  well_binned gs d → i ≠ j →
  values d !! i = Some b1 → values d !! j = Some b2 →
  w ∈ b1 → w ∉ b2.
Proof.
  intros (Hnd & Hkeyed & _) Hij H1 H2 Hw1 Hw2. unfold values in *.
  rewrite list_lookup_fmap in H1, H2.
  destruct (d !! i) as [[k1 c1]|] eqn:Hi; simplify_eq/=.
  destruct (d !! j) as [[k2 c2]|] eqn:Hj; simplify_eq/=.
  unfold keyed in Hkeyed. rewrite Forall_lookup in Hkeyed.
  pose proof (Hkeyed _ _ Hi) as K1. pose proof (Hkeyed _ _ Hj) as K2.
  rewrite Forall_forall in K1, K2. cbn [fst snd] in *.
  specialize (K1 _ Hw1). specialize (K2 _ Hw2).
  assert (k1 = k2) as -> by congruence.
  apply Hij. eapply NoDup_lookup; [exact Hnd| |];
    rewrite list_lookup_fmap; [by rewrite Hi|by rewrite Hj].
Qed.

Lemma sum_list_with_length_concat {A : Type} (l : list (list A)) :
  sum_list_with length l = length (concat l).
Proof. induction l; simpl; [done|]. rewrite length_app. lia. Qed.

Lemma replies_of_is_Some (gs : list Word) (t : Word) :
  Forall (λ g, 5 ≤ length g) gs → 5 ≤ length t → is_Some (replies_of gs t).
Proof.
  intros Hgs Ht. apply mapM_is_Some. eapply Forall_impl; [exact Hgs|].
  intros g Hg. cbn. apply reply_for_is_Some. done.
Qed.

(** [partition] returns on every corpus of words of five or more letters. *)
Lemma partition_is_Some (gs ts : list Word) :
  Forall (λ g, 5 ≤ length g) gs → Forall (λ t, 5 ≤ length t) ts →
  is_Some (partition gs ts).
Proof.
  intros Hgs Hts. unfold partition. generalize ([] : Bins).
  induction Hts as [|t ts Ht Hts IH]; intros d; cbn [foldM]; [eauto|].
  destruct (replies_of_is_Some gs t Hgs Ht) as [k ->]. cbn. apply IH.
Qed.

Lemma append_to_filter (gs seen : list Word) (k : Key) (t : Word) (d : Bins) :
  replies_of gs t = Some k → NoDup d.*1 →
  Forall (λ kb, kb.2 = filter (λ t, replies_of gs t = Some kb.1) seen) d →
  (k ∉ d.*1 → filter (λ t, replies_of gs t = Some k) seen = []) →
  Forall (λ kb, kb.2 = filter (λ t, replies_of gs t = Some kb.1) (seen ++ [t]))
         (append_to k t d).
Proof.
  intros Hk. induction d as [|[k' b] d IH]; intros Hnd Hd Hfresh;
    cbn [append_to].
  { repeat constructor. cbn [fst snd].
    rewrite filter_app, Hfresh by apply not_elem_of_nil.
    by rewrite filter_cons, decide_True. }
  apply Forall_cons in Hd as [Hb Hd]. cbn [fst snd] in Hb.
  cbn [fmap list_fmap fst] in Hnd. apply NoDup_cons in Hnd as [Hk' Hnd].
  destruct (decide (k' = k)) as [->|Hne].
  - constructor.
    + cbn [fst snd]. rewrite filter_app, <- Hb.
      by rewrite filter_cons, decide_True.
    + rewrite Forall_forall in Hd |- *. intros [k2 b2] Hin.
      pose proof (Hd _ Hin) as Hb2. cbn [fst snd] in Hb2 |- *.
      rewrite filter_app, <- Hb2, filter_cons.
      rewrite decide_False; [by rewrite app_nil_r|].
      intros Heq. apply Hk'. apply list_elem_of_fmap. exists (k2, b2).
      split; [|done]. cbn. congruence.
  - constructor.
    + cbn [fst snd]. rewrite filter_app, <- Hb.
      rewrite filter_cons, decide_False by congruence.
      by rewrite app_nil_r.
    + apply IH; [done..|]. intros Hnin. apply Hfresh.
      intros [?|?]%elem_of_cons; done.
Qed.

Lemma append_to_in_order (gs seen : list Word) (k : Key) (t : Word) (d : Bins) :
  replies_of gs t = Some k → NoDup d.*1 →
  in_order gs seen d → in_order gs (seen ++ [t]) (append_to k t d).
Proof.
  intros Hk Hnd [Hbins Hfresh]. split.
  - apply append_to_filter; auto.
  - intros k0 Hk0. rewrite append_to_keys in Hk0.
    assert ((k0 ∉ d.*1) ∧ k0 ≠ k) as [Hnin Hne].
    { destruct (decide (k ∈ d.*1)); [split; [done|by intros ->]|].
      rewrite elem_of_app, list_elem_of_singleton in Hk0. tauto. }
    rewrite filter_app, Hfresh, filter_cons by done.
    rewrite decide_False by congruence. done.
Qed.

Lemma partition_loop_in_order (gs ts : list Word) :
  ∀ (seen : list Word) (d d' : Bins),
    foldM (λ d target, replies ← replies_of gs target;
                       Some (append_to replies target d)) d ts = Some d' →
    NoDup d.*1 → in_order gs seen d → in_order gs (seen ++ ts) d'.
Proof.
  induction ts as [|t ts IH]; intros seen d d' Hrun Hnd Hd; cbn [foldM] in Hrun.
  { injection Hrun as <-. by rewrite app_nil_r. }
  destruct (replies_of gs t) as [k|] eqn:Hk; [|done]. cbn in Hrun.
  replace (seen ++ t :: ts) with ((seen ++ [t]) ++ ts) by by rewrite <- app_assoc.
  apply (IH _ _ _ Hrun); [by apply append_to_NoDup|by apply append_to_in_order].
Qed.

(** C2 (partition completeness): whenever [partition guesses targets] returns
    bins, two different bins share no word, the bins taken together are a
    rearrangement of [targets] (no target omitted or duplicated), and the
    bin sizes add up to the number of targets. *)
Theorem partition_exact (guesses targets : list Word) (p : Bins) :
  partition guesses targets = Some p →
  (∀ i j b1 b2 w, i ≠ j → values p !! i = Some b1 → values p !! j = Some b2 →
                  w ∈ b1 → w ∉ b2) ∧
  concat (values p) ≡ₚ targets ∧
  sum_list_with length (values p) = length targets.
Proof.
  intros Hp. destruct (partition_well_binned _ _ _ Hp) as [Hwb Hperm].
  split_and!.
  - intros i j b1 b2 w. by apply (well_binned_disjoint guesses).
  - done.
  - by rewrite sum_list_with_length_concat, Hperm.
Qed.

Lemma partition_exact_witness :
  ∃ p, partition [str "HELLO"] few = Some p ∧
    (∀ i j b1 b2 w, i ≠ j → values p !! i = Some b1 → values p !! j = Some b2 →
                    w ∈ b1 → w ∉ b2) ∧
    concat (values p) ≡ₚ few ∧
    sum_list_with length (values p) = length few.
Proof.
  eexists. split; [vm_compute; reflexivity|].
  apply (partition_exact [str "HELLO"] few). vm_compute. reflexivity.
Defined.

(** * The win verifier *)

Lemma allM_true {A : Type} (f : A → option bool) (l : list A) :
  allM f l = Some true ↔ ∀ x, x ∈ l → f x = Some true.
Proof.
  induction l as [|x l IH]; cbn [allM].
  { split; [by intros _ x ?%elem_of_nil|done]. }
  split.
  - intros Hall y Hy. destruct (f x) as [[]|] eqn:Hfx; try done.
    cbn in Hall. apply elem_of_cons in Hy as [->|Hy]; [done|]. by apply IH.
  - intros Hall. rewrite (Hall x) by left. cbn. apply IH.
    intros y Hy. apply Hall. by right.
Qed.


Lemma can_win_bin_true (w : Word) (bin : list Word) :
  can_win_bin w bin = Some true ↔ splits_into_singletons w bin.
Proof.
  unfold can_win_bin, splits_into_singletons.
  destruct (partition [w] bin) as [p5|]; cbn.
  - rewrite allM_true. split.
    + intros Hall. exists p5. split; [done|]. intros bin5 Hin.
      specialize (Hall _ Hin). injection Hall as Hall.
      by apply bool_decide_eq_true in Hall.
    + intros (p & [= <-] & Hall) bin5 Hin. f_equal.
      apply bool_decide_eq_true. by apply Hall.
  - split; [done|]. by intros (p & ? & _).
Qed.

(** C1: [can_win guesses targets] returns true exactly when every bin of the
    partition of [targets] by [guesses] has at most one word, or is split
    into bins of exactly one word by each of its words taken as the sole
    guess. *)
Theorem can_win_iff_spec (guesses targets : list Word) :
  can_win guesses targets = Some true ↔ can_win_spec guesses targets.
Proof.
  unfold can_win, can_win_spec.
  destruct (partition guesses targets) as [p|]; cbn.
  - rewrite allM_true. split.
    + intros Hall. exists p. split; [done|]. intros bin Hin.
      specialize (Hall _ Hin). case_bool_decide; [left; lia|right].
      intros w Hw. apply can_win_bin_true.
      by apply (proj1 (allM_true _ _) Hall).
    + intros (p' & [= <-] & Hall) bin Hin.
      case_bool_decide; [done|].
      destruct (Hall _ Hin) as [Hle|Hsplit]; [lia|].
      apply allM_true. intros w Hw. apply can_win_bin_true. by apply Hsplit.
  - split; [done|]. by intros (p & ? & _).
Qed.

Lemma elem_of_concat_bin {A : Type} (l : list (list A)) (b : list A) (x : A) :
  b ∈ l → x ∈ b → x ∈ concat l.
Proof.
  induction 1 as [b l|b b' l _ IH]; intros Hx; cbn [concat];
    apply elem_of_app; auto.
Qed.

Lemma NoDup_concat_bin {A : Type} (l : list (list A)) (b : list A) :
  b ∈ l → NoDup (concat l) → NoDup b.
Proof.
  induction 1 as [b l|b b' l _ IH]; cbn [concat]; intros Hnd;
    apply NoDup_app in Hnd as (? & _ & ?); auto.
Qed.

(** Each word of a bin of two different five-letter words splits the bin:
    the word itself is answered all Green, the other word is not. *)
Lemma can_win_bin_pair (a b w : Word) :
  a ≠ b → length a = 5 → length b = 5 → w ∈ [a; b] →
  can_win_bin w [a; b] = Some true.
Proof.
  intros Hab Ha Hb Hw.
  assert (length w = 5) as Hlw.
  { apply elem_of_cons in Hw as [->|Hw]; [done|].
    by apply list_elem_of_singleton in Hw as ->. }
  assert (encode (pairs5 w a) ≠ encode (pairs5 w b)) as Hne.
  { intros Heq. apply elem_of_cons in Hw as [->|Hw].
    - apply Hab. apply (encode_all_green a b); [done..|].
      rewrite <- Heq. by apply encode_all_green.
    - apply list_elem_of_singleton in Hw as ->.
      apply Hab. symmetry. apply (encode_all_green b a); [done..|].
      rewrite Heq. by apply encode_all_green. }
  unfold can_win_bin, partition, replies_of. cbn [foldM mapM].
  rewrite !reply_for_encode by lia. cbn.
  rewrite decide_False by congruence. reflexivity.
Qed.



(** * Bin statistics *)

Lemma tally_append_to (r : Reply) (t : Word) (ctr : list (list ascii * Z))
    (d : Bins) :
  counts_bins ctr d → counts_bins (tally r ctr) (append_to [r] t d).
Proof.
  unfold counts_bins.
  induction 1 as [|[r' n] [k' b] ctr d [Hk Hn] Htl IH]; cbn [tally append_to].
  { by repeat constructor. }
  cbn [fst snd] in Hk, Hn. subst k' n.
  destruct (decide (r' = r)) as [->|Hne].
  - rewrite decide_True by done. constructor; [|exact Htl]. split; [done|].
    cbn [snd]. unfold bin_size. rewrite length_app. cbn [length]. lia.
  - rewrite decide_False by congruence. constructor; [|exact IH]. by split.
Qed.

Lemma replies_of_single (guess t : Word) :
  replies_of [guess] t = r ← reply_for guess t; Some [r].
Proof. unfold replies_of. cbn. by destruct (reply_for guess t). Qed.

Lemma tally_loop_partition (guess : Word) (ws : list Word) :
  ∀ (ctr : list (list ascii * Z)) (d : Bins),
    counts_bins ctr d →
    option_Forall2 counts_bins
      (foldM (λ ctr target, r ← reply_for guess target; Some (tally r ctr))
             ctr ws)
      (foldM (λ d target, replies ← replies_of [guess] target;
                          Some (append_to replies target d)) d ws).
Proof.
  induction ws as [|t ws IH]; intros ctr d Hrel; cbn [foldM].
  { by constructor. }
  rewrite replies_of_single.
  destruct (reply_for guess t) as [r|]; cbn; [|constructor].
  apply IH. by apply tally_append_to.
Qed.

Lemma counts_bins_values (ctr : list (list ascii * Z)) (d : Bins) :
  counts_bins ctr d → values ctr = bin_size <$> values d.
Proof.
  unfold values. induction 1 as [|[r n] [k b] ctr d [_ Hn] _ IH]; [done|].
  cbn in *. by rewrite Hn, IH.
Qed.

(** [bin_sizes] lists the sizes of the bins of the single-guess partition of
    the word list, in the order of the bins. *)
Lemma bin_sizes_partition (words : list Word) (guess : Word) :
  bin_sizes words guess
  = p ← partition [guess] words; Some (bin_size <$> values p).
Proof.
  unfold bin_sizes, partition.
  pose proof (tally_loop_partition guess words [] []) as Hrel.
  destruct Hrel as [ctr d Hrel|]; [by constructor| |done].
  cbn. f_equal. by apply counts_bins_values.
Qed.

Lemma count_singletons (bins : list (list Word)) :
  length (filter (λ n, n = 1%Z) (bin_size <$> bins))
  = length (filter (λ bin, length bin = 1) bins).
Proof.
  induction bins as [|b bins IH]; [done|].
  cbn [fmap list_fmap]. rewrite !filter_cons.
  destruct (decide (length b = 1)).
  - rewrite decide_True by (unfold bin_size; lia). cbn [length]. by rewrite IH.
  - rewrite decide_False by (unfold bin_size; lia). done.
Qed.





(** * The candidate generator *)

Lemma fits_difference_size (letters : gset ascii) (w : Word) :
  fits letters w → size (letters ∖ set_of w) + 5 = size letters.
Proof.
  intros [Hsub Hsize]. rewrite size_difference by done.
  apply subseteq_size in Hsub. lia.
Qed.

Lemma scan_fuel_is_Some (rest : gset ascii → option (option (list Word)))
    (letters : gset ascii) (ws : list Word) :
  (∀ w, w ∈ ws → fits letters w → is_Some (rest (letters ∖ set_of w))) →
  is_Some (scan_fuel rest letters ws).
Proof.
  induction ws as [|w ws IH]; intros Hrest; cbn [scan_fuel]; [eauto|].
  assert (is_Some (scan_fuel rest letters ws)) as Htl.
  { apply IH. intros w' Hw'. apply Hrest. by right. }
  fold (fits letters w). destruct (decide (fits letters w)) as [Hfit|]; [|done].
  destruct (Hrest w) as [[r|] ->]; [by left|done|eauto|done].
Qed.

(** Enough fuel: the search never runs out with more unrollings than letters. *)
Lemma disjoint_words_fuel_enough (fuel : nat) :
  ∀ (n : Z) (words : list Word) (letters : gset ascii),
    size letters < fuel → is_Some (disjoint_words_fuel fuel n words letters).
Proof.
  induction fuel as [|fuel IH]; intros n words letters Hsize;
    cbn [disjoint_words_fuel]; case_decide; eauto; [lia|].
  apply scan_fuel_is_Some. intros w _ Hfit. apply IH.
  apply fits_difference_size in Hfit. lia.
Qed.

Lemma scan_fuel_ext (rest1 rest2 : gset ascii → option (option (list Word)))
    (letters : gset ascii) (ws : list Word) (r : option (list Word)) :
  (∀ w r', w ∈ ws → fits letters w →
           rest1 (letters ∖ set_of w) = Some r' →
           rest2 (letters ∖ set_of w) = Some r') →
  scan_fuel rest1 letters ws = Some r → scan_fuel rest2 letters ws = Some r.
Proof.
  induction ws as [|w ws IH]; intros Hrest; cbn [scan_fuel]; [done|].
  assert (scan_fuel rest1 letters ws = Some r → scan_fuel rest2 letters ws = Some r)
    as Htl.
  { apply IH. intros w' r' Hw'. apply Hrest. by right. }
  fold (fits letters w). destruct (decide (fits letters w)) as [Hfit|]; [|done].
  destruct (rest1 (letters ∖ set_of w)) as [r1|] eqn:H1; [|done].
  rewrite (Hrest w r1); [|by left|done..]. by destruct r1.
Qed.

(** More fuel does not change a result. *)
Lemma disjoint_words_fuel_mono (fuel : nat) :
  ∀ (fuel' : nat) (n : Z) (words : list Word) (letters : gset ascii)
    (r : option (list Word)),
    fuel ≤ fuel' →
    disjoint_words_fuel fuel n words letters = Some r →
    disjoint_words_fuel fuel' n words letters = Some r.
Proof.
  induction fuel as [|fuel IH]; intros fuel' n words letters r Hle;
    destruct fuel' as [|fuel']; cbn [disjoint_words_fuel];
    case_decide; try done; try lia.
  apply scan_fuel_ext. intros w r' _ _. apply IH. lia.
Qed.

Lemma disjoint_words_fuel_total (fuel : nat) (n : Z) (words : list Word)
    (letters : gset ascii) :
  size letters < fuel →
  disjoint_words_fuel fuel n words letters
  = Some (disjoint_words n words letters).
Proof.
  intros Hsize. unfold disjoint_words.
  destruct (disjoint_words_fuel_enough (S (size letters)) n words letters)
    as [r Hr]; [lia|].
  rewrite Hr. cbn. apply (disjoint_words_fuel_mono (S (size letters))); [lia|done].
Qed.

Lemma scan_fuel_scan (rest : gset ascii → option (option (list Word)))
    (rest' : gset ascii → option (list Word))
    (letters : gset ascii) (ws : list Word) :
  (∀ w, w ∈ ws → fits letters w →
        rest (letters ∖ set_of w) = Some (rest' (letters ∖ set_of w))) →
  scan_fuel rest letters ws = Some (scan rest' letters ws).
Proof.
  induction ws as [|w ws IH]; intros Hrest; cbn [scan_fuel scan]; [done|].
  assert (scan_fuel rest letters ws = Some (scan rest' letters ws)) as Htl.
  { apply IH. intros w' Hw'. apply Hrest. by right. }
  fold (fits letters w). destruct (decide (fits letters w)) as [Hfit|]; [|done].
  rewrite (Hrest w); [|by left|done].
  by destruct (rest' (letters ∖ set_of w)).
Qed.

(** [disjoint_words] satisfies the equation of the Python body. *)
Lemma disjoint_words_unfold (n : Z) (words : list Word) (letters : gset ascii) :
  disjoint_words n words letters
  = if decide (n = 0%Z) then Some []
    else scan (disjoint_words (n - 1) words) letters words.
Proof.
  unfold disjoint_words at 1. cbn [disjoint_words_fuel].
  case_decide; [done|].
  rewrite (scan_fuel_scan _ (disjoint_words (n - 1) words)); [done|].
  intros w _ Hfit. apply disjoint_words_fuel_total.
  apply fits_difference_size in Hfit. lia.
Qed.

Lemma scan_Some (rest : gset ascii → option (list Word)) (letters : gset ascii)
    (ws : list Word) (l : list Word) :
  scan rest letters ws = Some l →
  ∃ w r, l = w :: r ∧ w ∈ ws ∧ fits letters w ∧
         rest (letters ∖ set_of w) = Some r.
Proof.
  induction ws as [|w ws IH]; cbn [scan]; [done|].
  assert (scan rest letters ws = Some l →
          ∃ w0 r, l = w0 :: r ∧ w0 ∈ w :: ws ∧ fits letters w0 ∧
                  rest (letters ∖ set_of w0) = Some r) as Htl.
  { intros (w0 & r & -> & Hin & Hfit & Hrest)%IH.
    exists w0, r. split_and!; auto. by right. }
  fold (fits letters w). destruct (decide (fits letters w)) as [Hfit|]; [|done].
  destruct (rest (letters ∖ set_of w)) as [r|] eqn:Hr; [|done].
  intros [= <-]. exists w, r. split_and!; auto. by left.
Qed.

(** The loop gives up exactly when every word of the pool was rejected: it
    fails the letter test, or the search below it found nothing. *)
Lemma scan_None (rest : gset ascii → option (list Word)) (letters : gset ascii)
    (ws : list Word) :
  scan rest letters ws = None ↔
  ∀ w, w ∈ ws → ¬ fits letters w ∨ rest (letters ∖ set_of w) = None.
Proof.
  induction ws as [|w ws IH]; cbn [scan].
  { split; [by intros _ w ?%elem_of_nil|done]. }
  fold (fits letters w). destruct (decide (fits letters w)) as [Hfit|Hfit].
  - destruct (rest (letters ∖ set_of w)) as [r|] eqn:Hr.
    + split; [done|]. intros Hall. destruct (Hall w) as [?|?]; [by left|done|].
      congruence.
    + rewrite IH. split.
      * intros Hall w' [->|Hw']%elem_of_cons; auto.
      * intros Hall w' Hw'. apply Hall. by right.
  - rewrite IH. split.
    + intros Hall w' [->|Hw']%elem_of_cons; auto.
    + intros Hall w' Hw'. apply Hall. by right.
Qed.

Lemma disjoint_words_chosen (pool : list Word) (l : list Word) :
  ∀ (n : Z) (budget : gset ascii),
    disjoint_words n pool budget = Some l →
    Z.of_nat (length l) = n ∧ chosen pool budget l.
Proof.
  induction l as [|w l IH]; intros n budget; rewrite disjoint_words_unfold;
    case_decide; subst.
  - done.
  - by intros (w0 & r & ? & _)%scan_Some.
  - done.
  - intros (w0 & r & [= <- <-] & Hin & Hfit & Hrest)%scan_Some.
    apply IH in Hrest as [Hlen Hch]. split; [|done].
    cbn [length]. lia.
Qed.

Lemma chosen_found (pool : list Word) (l : list Word) :
  ∀ (n : Z) (budget : gset ascii),
    Z.of_nat (length l) = n → chosen pool budget l →
    is_Some (disjoint_words n pool budget).
Proof.
  induction l as [|w l IH]; intros n budget Hlen Hch;
    rewrite disjoint_words_unfold.
  { rewrite decide_True by (cbn in Hlen; lia). eauto. }
  rewrite decide_False by (cbn in Hlen; lia).
  destruct Hch as (Hin & Hfit & Hch).
  destruct (scan _ budget pool) as [r|] eqn:Hscan; [eauto|].
  rewrite scan_None in Hscan. destruct (Hscan w Hin) as [?|Hnone]; [done|].
  destruct (IH (n - 1)%Z (budget ∖ set_of w)) as [r Hr]; [cbn in Hlen; lia|done|].
  congruence.
Qed.

Lemma chosen_fits (pool : list Word) (l : list Word) :
  ∀ (budget : gset ascii) (w : Word),
    chosen pool budget l → w ∈ l → w ∈ pool ∧ fits budget w.
Proof.
  induction l as [|w0 l IH]; intros budget w Hch Hw.
  { by apply elem_of_nil in Hw. }
  destruct Hch as (Hin & Hfit & Hch).
  apply elem_of_cons in Hw as [->|Hw]; [done|].
  destruct (IH _ _ Hch Hw) as [Hpool [Hsub Hsize]].
  split; [done|]. split; [set_solver|done].
Qed.

Lemma chosen_level (pool : list Word) (l : list Word) :
  ∀ (budget : gset ascii) (i : nat) (w : Word),
    chosen pool budget l → l !! i = Some w →
    w ∈ pool ∧ set_of w ⊆ level_budget budget l i ∧ size (set_of w) = 5.
Proof.
  unfold level_budget.
  induction l as [|w0 l IH]; intros budget i w Hch Hi; [done|].
  destruct Hch as (Hin & [Hsub Hsize] & Hch). destruct i as [|i].
  - injection Hi as <-. cbn [take]. rewrite fmap_nil, union_list_nil.
    split_and!; [done|set_solver|done].
  - cbn in Hi. destruct (IH _ _ _ Hch Hi) as (Hpool & Hlev & Hsz).
    split_and!; [done| |done].
    cbn [take]. rewrite fmap_cons, union_list_cons. set_solver.
Qed.

Lemma chosen_disjoint (pool : list Word) (l : list Word) :
  ∀ (budget : gset ascii) (i j : nat) (w1 w2 : Word),
    chosen pool budget l → i ≠ j → l !! i = Some w1 → l !! j = Some w2 →
    set_of w1 ## set_of w2.
Proof.
  induction l as [|w0 l IH]; intros budget i j w1 w2 Hch Hij Hi Hj; [done|].
  destruct Hch as (Hin & Hfit & Hch).
  destruct i as [|i], j as [|j]; cbn in Hi, Hj; simplify_eq.
  - apply list_elem_of_lookup_2 in Hj.
    destruct (chosen_fits _ _ _ _ Hch Hj) as [_ [Hsub _]]. set_solver.
  - apply list_elem_of_lookup_2 in Hi.
    destruct (chosen_fits _ _ _ _ Hch Hi) as [_ [Hsub _]]. set_solver.
  - apply (IH _ i j _ _ Hch); auto.
Qed.

Lemma chosen_union (pool : list Word) (l : list Word) :
  ∀ budget : gset ascii,
    chosen pool budget l →
    ⋃ (set_of <$> l) ⊆ budget ∧ size (⋃ (set_of <$> l)) = 5 * length l.
Proof.
  induction l as [|w l IH]; intros budget Hch.
  { rewrite fmap_nil, union_list_nil, size_empty. split; [set_solver|done]. }
  destruct Hch as (Hin & [Hsub Hsize] & Hch).
  destruct (IH _ Hch) as [Hsub' Hsize'].
  rewrite fmap_cons, union_list_cons.
  split; [set_solver|]. rewrite size_union by set_solver. cbn [length]. lia.
Qed.

Lemma chosen_feasible (pool : list Word) (budget : gset ascii) (l : list Word) :
  chosen pool budget l ↔ feasible (Z.of_nat (length l)) pool budget l.
Proof.
  split.
  - intros Hch. split_and!; [done| |].
    + intros w. by apply chosen_fits.
    + intros i j w1 w2. by apply (chosen_disjoint pool l budget).
  - intros (_ & Hfits & Hdisj). revert budget Hfits Hdisj.
    induction l as [|w l IH]; intros budget Hfits Hdisj; [done|].
    destruct (Hfits w) as [Hin Hfit]; [by left|].
    split_and!; [done..|]. apply IH.
    + intros w' Hw'. destruct (Hfits w') as [Hin' [Hsub' Hsz']]; [by right|].
      split; [done|]. split; [|done].
      apply list_elem_of_lookup_1 in Hw' as [j Hj].
      specialize (Hdisj 0 (S j) w w' ltac:(done) eq_refl Hj). set_solver.
    + intros i j w1 w2 Hij Hi Hj. apply (Hdisj (S i) (S j)); auto.
Qed.

Lemma size_set_of_le (w : Word) : size (set_of w) ≤ length w.
Proof.
  unfold set_of. induction w as [|x w IH]; cbn [list_to_set length].
  { by rewrite size_empty. }
  rewrite size_union_alt, size_singleton.
  assert (size (list_to_set w ∖ {[x]} : gset ascii) ≤ size (list_to_set w : gset ascii)).
  { apply subseteq_size. set_solver. }
  lia.
Qed.

(** A word with as many distinct letters as letters repeats none. *)
Lemma NoDup_of_size (w : Word) : size (set_of w) = length w → NoDup w.
Proof.
  induction w as [|x w IH]; intros Hsize; [constructor|].
  pose proof (size_set_of_le w) as Hle.
  unfold set_of in *. cbn [list_to_set length] in Hsize.
  destruct (decide (x ∈ w)) as [Hin|Hnin].
  - assert ({[x]} ∪ list_to_set w = (list_to_set w : gset ascii)) as Heq.
    { assert (x ∈ (list_to_set w : gset ascii)) by (by apply elem_of_list_to_set).
      set_solver. }
    rewrite Heq in Hsize. lia.
  - constructor; [done|]. apply IH.
    rewrite size_union, size_singleton in Hsize; [lia|].
    rewrite disjoint_singleton_l. by rewrite elem_of_list_to_set.
Qed.

(** ** The claims about the candidate generator *)

Lemma chosen_concat (pool : list Word) (l : list Word) :
  ∀ budget : gset ascii,
    chosen pool budget l → Forall (λ w, length w = 5) l →
    NoDup (concat l) ∧ length (concat l) = 5 * length l ∧
    ∀ c, c ∈ concat l → c ∈ budget.
Proof.
  induction l as [|w l IH]; intros budget Hch Hlen.
  { split_and!; [constructor|done|]. intros c Hc. by apply elem_of_nil in Hc. }
  destruct Hch as (Hin & [Hsub Hsize] & Hch).
  apply Forall_cons in Hlen as [Hw Hlen].
  destruct (IH _ Hch Hlen) as (Hnd & Hl & Hb).
  cbn [concat]. split_and!.
  - apply NoDup_app. split_and!; [|intros c Hc Hc'|done].
    + apply NoDup_of_size. lia.
    + apply Hb in Hc'. apply elem_of_difference in Hc' as [_ Hc'].
      apply Hc'. unfold set_of. by apply elem_of_list_to_set.
  - rewrite length_app, Hl. cbn [length]. lia.
  - intros c [Hc|Hc]%elem_of_app.
    + apply Hsub. unfold set_of. by apply elem_of_list_to_set.
    + apply Hb in Hc. by apply elem_of_difference in Hc as [Hc _].
Qed.

(** C6: whenever [disjoint_words n pool budget] returns a sequence, on a
    pool of words (strings of five letters, the source's [Word]), it has
    exactly [n] words of the pool; the letter-set of each is a subset of the
    budget available at its level and has exactly five letters; the
    letter-sets are pairwise disjoint; and for [n = 4] the combined letters
    are 20 distinct letters of the budget: the 20 letters of the four words,
    read one after the other, are all in the budget and no letter occurs
    twice, neither within a word nor across words. *)
Theorem disjoint_words_sound (n : Z) (pool : list Word) (budget : gset ascii)
    (l : list Word) :
  Forall (λ w, length w = 5) pool →
  disjoint_words n pool budget = Some l →
  Z.of_nat (length l) = n ∧
  (∀ i w, l !! i = Some w →
          w ∈ pool ∧ set_of w ⊆ level_budget budget l i ∧ size (set_of w) = 5) ∧
  (∀ i j w1 w2, i ≠ j → l !! i = Some w1 → l !! j = Some w2 →
                set_of w1 ## set_of w2) ∧
  (n = 4%Z →
   size (⋃ (set_of <$> l)) = 20 ∧ ⋃ (set_of <$> l) ⊆ budget ∧
   length (concat l) = 20 ∧ NoDup (concat l) ∧
   ∀ c, c ∈ concat l → c ∈ budget).
Proof.
  intros Hpool [Hlen Hch]%disjoint_words_chosen. split_and!.
  - done.
  - intros i w. by apply chosen_level.
  - intros i j w1 w2. by apply (chosen_disjoint pool l budget).
  - intros ->. destruct (chosen_union _ _ _ Hch) as [Hsub Hsize].
    assert (Forall (λ w, length w = 5) l) as Hl.
    { apply Forall_forall. intros w Hw. rewrite Forall_forall in Hpool.
      apply Hpool. by destruct (chosen_fits _ _ _ _ Hch Hw). }
    destruct (chosen_concat _ _ _ Hch Hl) as (Hnd & Hcl & Hb).
    split_and!; [lia|done|lia|done|done].
Qed.

Lemma disjoint_words_sound_witness :
  ∃ l, disjoint_words 4 (map str ["ABHOR"; "CLEFT"; "DUMPY"; "SWING"]%string)
                      letters = Some l ∧
    Z.of_nat (length l) = 4%Z ∧
    (∀ i w, l !! i = Some w →
            w ∈ map str ["ABHOR"; "CLEFT"; "DUMPY"; "SWING"]%string ∧
            set_of w ⊆ level_budget letters l i ∧ size (set_of w) = 5) ∧
    (∀ i j w1 w2, i ≠ j → l !! i = Some w1 → l !! j = Some w2 →
                  set_of w1 ## set_of w2) ∧
    (4%Z = 4%Z →
     size (⋃ (set_of <$> l)) = 20 ∧ ⋃ (set_of <$> l) ⊆ letters ∧
     length (concat l) = 20 ∧ NoDup (concat l) ∧
     ∀ c, c ∈ concat l → c ∈ letters).
Proof.
  exists (map str ["ABHOR"; "CLEFT"; "DUMPY"; "SWING"]%string).
  split; [vm_compute; reflexivity|].
  apply (disjoint_words_sound 4
           (map str ["ABHOR"; "CLEFT"; "DUMPY"; "SWING"]%string) letters).
  - apply (bool_decide_unpack _). vm_compute. exact I.
  - vm_compute. reflexivity.
Defined.

(** C7: [disjoint_words 0 pool budget] returns the empty sequence; for every
    [n] the search terminates ([size budget + 1] unrollings give its result)
    and returns the no-solution result exactly when no feasible word-set
    exists; and it returns no solution exactly when [n] is not zero and every
    word of the pool was rejected at the top level, by the letter test or
    because the search below it failed. *)
Theorem disjoint_words_no_solution (n : Z) (pool : list Word)
    (budget : gset ascii) :
  disjoint_words 0 pool budget = Some [] ∧
  disjoint_words_fuel (S (size budget)) n pool budget
  = Some (disjoint_words n pool budget) ∧
  (disjoint_words n pool budget = None ↔ ¬ ∃ l, feasible n pool budget l) ∧
  (disjoint_words n pool budget = None ↔
   n ≠ 0%Z ∧
   ∀ w, w ∈ pool →
        ¬ fits budget w ∨
        disjoint_words (n - 1) pool (budget ∖ set_of w) = None).
Proof.
  split_and!.
  - by rewrite disjoint_words_unfold.
  - apply disjoint_words_fuel_total. lia.
  - split.
    + intros Hnone (l & Hfeas).
      assert (Z.of_nat (length l) = n) as Hlen by apply Hfeas. subst n.
      apply chosen_feasible in Hfeas.
      destruct (chosen_found pool l _ budget eq_refl Hfeas) as [r Hr].
      congruence.
    + intros Hno. destruct (disjoint_words n pool budget) as [l|] eqn:Hl; [|done].
      exfalso. apply Hno. exists l.
      apply disjoint_words_chosen in Hl as [<- Hch]. by apply chosen_feasible.
  - rewrite disjoint_words_unfold. case_decide.
    + split; [done|]. by intros [? _].
    + rewrite scan_None. split; [by split|by intros [_ ?]].
Qed.

(** * Further properties *)

(** The encoder returns a reply exactly when the guess and the target have at
    least five letters each; on shorter words it raises [IndexError]. *)
Theorem reply_for_returns (g t : Word) :
  is_Some (reply_for g t) ↔ 5 ≤ length g ∧ 5 ≤ length t.
Proof. apply reply_for_is_Some. Qed.

(** [partition] returns whenever every guess and every target has at least
    five letters. *)
Theorem partition_returns (guesses targets : list Word) :
  Forall (λ g, 5 ≤ length g) guesses → Forall (λ t, 5 ≤ length t) targets →
  is_Some (partition guesses targets).
Proof. apply partition_is_Some. Qed.

Lemma partition_returns_witness :
  is_Some (partition [str "HELLO"; str "WORLD"] few).
Proof.
  apply partition_returns; apply (bool_decide_unpack _); vm_compute; exact I.
Defined.

(** Insertion order is preserved: a bin of [partition guesses targets] is not
    empty and lists, in the order of [targets], exactly the targets whose
    tuple of replies is the key of the bin. *)
Theorem partition_bins_in_order (guesses targets : list Word) (p : Bins)
    (k : Key) (b : list Word) :
  partition guesses targets = Some p → (k, b) ∈ p →
  b ≠ [] ∧ b = filter (λ t, replies_of guesses t = Some k) targets.
Proof.
  intros Hp Hin.
  destruct (partition_well_binned _ _ _ Hp) as [(_ & _ & Hne) _].
  apply (partition_loop_in_order guesses targets []) in Hp as [Hbins _].
  - rewrite Forall_forall in Hne, Hbins. split.
    + apply (Hne _ Hin).
    + apply (Hbins _ Hin).
  - apply NoDup_nil_2.
  - split; [constructor|done].
Qed.

Lemma partition_bins_in_order_witness :
  [str "ALLAY"; str "LILAC"] ≠ [] ∧
  [str "ALLAY"; str "LILAC"]
  = filter (λ t, replies_of [str "HELLO"] t = Some [str "..GY."]) few.
Proof.
  apply (partition_bins_in_order [str "HELLO"] few
           [([str "GGGGG"], [str "HELLO"]); ([str "...GY"], [str "WORLD"]);
            ([str ".GGGG"], [str "CELLO"]); ([str ".YGY."], [str "ALLEY"]);
            ([str "GG..."], [str "HEAVY"; str "HEART"]);
            ([str "..GY."], [str "ALLAY"; str "LILAC"])]).
  - vm_compute. reflexivity.
  - do 5 right. left.
Defined.

(** Literal scenario 3: the eight example words are split by the guess
    [HELLO] into exactly six bins, and the bin of the reply to [ALLAY] holds
    [ALLAY] and [LILAC] and no other word. *)
Theorem partition_few_hello :
  ∃ p r, partition [str "HELLO"] few = Some p ∧ length p = 6 ∧
         reply_for (str "HELLO") (str "ALLAY") = Some r ∧
         ([r], [str "ALLAY"; str "LILAC"]) ∈ p.
Proof.
  eexists _, (str "..GY."). split_and!; [vm_compute; reflexivity..|].
  do 5 right. left.
Qed.

(** The model of [disjoint_words] satisfies the equation of the Python body:
    the empty tuple for [n == 0], and otherwise the first word of the pool
    that passes the letter test and under which the search for [n - 1] words
    on the remaining letters succeeds. *)
Theorem disjoint_words_equation (n : Z) (words : list Word)
    (letters : gset ascii) :
  disjoint_words n words letters
  = if decide (n = 0%Z) then Some []
    else scan (disjoint_words (n - 1) words) letters words.
Proof. apply disjoint_words_unfold. Qed.

(** ** The shape and the positions of a reply *)

Lemma mark_pairs_symbols (c : gmap ascii Z) (ps : list (ascii * ascii)) :
  Forall (λ m, m = Green ∨ m = Yellow ∨ m = Miss) (mark_pairs c ps).
Proof.
  revert c. induction ps as [|[a b] ps IH]; intros c; cbn [mark_pairs].
  { constructor. }
  repeat case_decide; constructor; auto.
Qed.

Lemma mark_pairs_green (c : gmap ascii Z) (ps : list (ascii * ascii)) (i : nat) :
  mark_pairs c ps !! i = Some Green ↔ ∃ a, ps !! i = Some (a, a).
Proof.
  revert c i. induction ps as [|[a b] ps IH]; intros c i; cbn [mark_pairs].
  { split; [done|by intros [? ?]]. }
  destruct i as [|i].
  - destruct (decide (a = b)) as [->|Hab].
    + split; [eauto|done].
    + split.
      * by destruct (decide (0 < count_of c a)%Z).
      * intros [a0 [= -> ->]]. done.
  - destruct (decide (a = b)); [apply IH|].
    destruct (decide (0 < count_of c a)%Z); apply IH.
Qed.

Lemma pairs5_lookup (g t : Word) (i : nat) (a b : ascii) :
  pairs5 g t !! i = Some (a, b) ↔ i < 5 ∧ g !! i = Some a ∧ t !! i = Some b.
Proof.
  unfold pairs5. rewrite lookup_zip_with_Some. split.
  - intros (x & y & [= <- <-] & Hx & Hy).
    apply lookup_take_Some in Hx as [Hx ?], Hy as [Hy ?]. done.
  - intros (Hi & Hg & Ht). exists a, b. split; [done|].
    split; apply lookup_take_Some; done.
Qed.

(** A reply has five symbols, each of them Green, Yellow or Miss. *)
Theorem reply_for_shape (g t : Word) (r : Reply) :
  reply_for g t = Some r →
  length r = 5 ∧ Forall (λ m, m = Green ∨ m = Yellow ∨ m = Miss) r.
Proof.
  intros Hr.
  assert (5 ≤ length g ∧ 5 ≤ length t) as [Hg Ht].
  { apply reply_for_is_Some. eauto. }
  rewrite reply_for_encode in Hr by done. injection Hr as <-. unfold encode.
  split; [|apply mark_pairs_symbols].
  by rewrite mark_pairs_length, pairs5_length.
Qed.

Lemma reply_for_shape_witness :
  length (str "...GY") = 5 ∧
  Forall (λ m, m = Green ∨ m = Yellow ∨ m = Miss) (str "...GY").
Proof.
  apply (reply_for_shape (str "HELLO") (str "WORLD")). vm_compute. reflexivity.
Defined.

(** Position [i] of a reply is Green exactly when [i] is one of the first
    five positions and the guess and the target hold the same letter there. *)
Theorem reply_for_green_positions (g t : Word) (r : Reply) (i : nat) :
  reply_for g t = Some r →
  r !! i = Some Green ↔ i < 5 ∧ g !! i = t !! i.
Proof.
  intros Hr.
  assert (5 ≤ length g ∧ 5 ≤ length t) as [Hg Ht].
  { apply reply_for_is_Some. eauto. }
  rewrite reply_for_encode in Hr by done. injection Hr as <-. unfold encode.
  rewrite mark_pairs_green. split.
  - intros [a (Hi & Ha & Hb)%pairs5_lookup]. split; [done|congruence].
  - intros [Hi Heq].
    destruct (lookup_lt_is_Some_2 g i) as [a Ha]; [lia|].
    exists a. apply pairs5_lookup. split_and!; [done..|congruence].
Qed.

Lemma reply_for_green_positions_witness :
  str ".GGGG" !! 1 = Some Green ↔ 1 < 5 ∧ str "HELLO" !! 1 = str "CELLO" !! 1.
Proof.
  apply (reply_for_green_positions (str "HELLO") (str "CELLO")).
  vm_compute. reflexivity.
Defined.

(** ** The number of Yellow marks *)

Lemma yellows_mark_pairs (x : ascii) (c : gmap ascii Z)
    (ps : list (ascii * ascii)) :
  yellows_on x ps.*1 (mark_pairs c ps)
  = length (filter (λ p, p.1 ≠ p.2 ∧ p.1 = x) ps) `min` Z.to_nat (count_of c x).
Proof.
  unfold yellows_on. revert c.
  induction ps as [|[a b] ps IH]; intros c; [done|].
  cbn [mark_pairs fmap list_fmap fst]. rewrite (filter_cons _ (a, b)).
  cbn [fst snd].
  destruct (decide (a = b)) as [<-|Hab].
  - rewrite (decide_False (P := a ≠ a ∧ a = x)) by tauto.
    cbn [zip zip_with]. rewrite filter_cons. cbn [fst snd].
    rewrite decide_False by (intros [_ ?]; done). apply IH.
  - destruct (decide (0 < count_of c a)%Z) as [Hpos|Hpos];
      cbn [zip zip_with]; rewrite filter_cons; cbn [fst snd].
    + specialize (IH (counter_dec c a)). rewrite count_of_counter_dec in IH.
      destruct (decide (a = x)) as [->|Hax].
      * rewrite !decide_True by auto. cbn [length]. rewrite IH. lia.
      * rewrite !decide_False by tauto. done.
    + rewrite (decide_False (P := a = x ∧ Miss = Yellow)) by (intros [_ ?]; done).
      rewrite IH. destruct (decide (a = x)) as [->|Hax].
      * rewrite decide_True by auto. cbn [length]. lia.
      * rewrite decide_False by tauto. done.
Qed.

Lemma yellows_on_take (x : ascii) (g r : list ascii) :
  yellows_on x g r = yellows_on x (take (length r) g) r.
Proof. unfold yellows_on. by rewrite zip_with_take_l. Qed.

Lemma yellows_encode (x : ascii) (g t : Word) :
  5 ≤ length g → 5 ≤ length t →
  yellows_on x g (encode (pairs5 g t))
  = misplaced_in_guess x g t `min` misplaced_in_target x g t.
Proof.
  intros Hg Ht. rewrite yellows_on_take. unfold encode.
  rewrite mark_pairs_length, pairs5_length, <- (pairs5_fst g t) by done.
  rewrite yellows_mark_pairs, count_of_unmatched_pairs, count_of_empty.
  by rewrite Z.add_0_l, Nat2Z.id.
Qed.

Lemma filter_zip_swap (P Q : ascii * ascii → Prop)
    `{∀ p, Decision (P p)} `{∀ p, Decision (Q p)} (l k : list ascii) :
  (∀ a b, P (a, b) ↔ Q (b, a)) →
  length (filter P (zip l k)) = length (filter Q (zip k l)).
Proof.
  intros HPQ. revert k. induction l as [|a l IH]; intros [|b k]; try done.
  cbn [zip zip_with]. rewrite !filter_cons.
  destruct (decide (P (a, b))) as [HP|HP].
  - rewrite decide_True by by apply HPQ. cbn [length]. by rewrite IH.
  - rewrite decide_False by by rewrite <- HPQ. apply IH.
Qed.

(** For every letter, the Yellow marks on that letter are as many as the
    smaller of two numbers counted over the first five positions: the
    non-matching positions of the guess that hold the letter, and the
    non-matching positions of the target that hold it. *)
Theorem reply_for_yellow_count (g t : Word) (r : Reply) (c : ascii) :
  reply_for g t = Some r →
  yellows_on c g r = misplaced_in_guess c g t `min` misplaced_in_target c g t.
Proof.
  intros Hr.
  assert (5 ≤ length g ∧ 5 ≤ length t) as [Hg Ht].
  { apply reply_for_is_Some. eauto. }
  rewrite reply_for_encode in Hr by done. injection Hr as <-.
  by apply yellows_encode.
Qed.

Lemma reply_for_yellow_count_witness :
  yellows_on "L" (str "HELLO") (str ".YGY.")
  = misplaced_in_guess "L" (str "HELLO") (str "ALLEY")
    `min` misplaced_in_target "L" (str "HELLO") (str "ALLEY").
Proof.
  apply (reply_for_yellow_count (str "HELLO") (str "ALLEY")).
  vm_compute. reflexivity.
Defined.

(** Swapping the guess and the target keeps the number of Green marks and,
    for every letter, the number of Yellow marks on that letter. *)
Theorem reply_for_swap (g t : Word) (r r' : Reply) :
  reply_for g t = Some r → reply_for t g = Some r' →
  hits r = hits r' ∧ ∀ c, yellows_on c g r = yellows_on c t r'.
Proof.
  intros Hr Hr'.
  assert (5 ≤ length g ∧ 5 ≤ length t) as [Hg Ht].
  { apply reply_for_is_Some. eauto. }
  rewrite reply_for_encode in Hr, Hr' by done.
  injection Hr as <-. injection Hr' as <-. split.
  - unfold encode. rewrite !hits_mark_pairs. unfold pairs5.
    apply filter_zip_swap. intros a b. cbn. split; congruence.
  - intros c. rewrite !yellows_encode by done.
    unfold misplaced_in_guess, misplaced_in_target, pairs5.
    rewrite (filter_zip_swap (λ p, p.1 ≠ p.2 ∧ p.1 = c)
               (λ p, p.1 ≠ p.2 ∧ p.2 = c) (take 5 g) (take 5 t))
      by (intros a b; cbn; naive_solver).
    rewrite (filter_zip_swap (λ p, p.1 ≠ p.2 ∧ p.2 = c)
               (λ p, p.1 ≠ p.2 ∧ p.1 = c) (take 5 g) (take 5 t))
      by (intros a b; cbn; naive_solver).
    apply Nat.min_comm.
Qed.

Lemma reply_for_swap_witness :
  hits (str "...GY") = hits (str ".Y.G.") ∧
  ∀ c, yellows_on c (str "HELLO") (str "...GY")
       = yellows_on c (str "WORLD") (str ".Y.G.").
Proof.
  apply (reply_for_swap (str "HELLO") (str "WORLD")); vm_compute; reflexivity.
Defined.

(** ** What the encoder ignores, and what it never marks *)

(** Only the first five letters of the guess and of the target matter; this
    includes the error: the encoder raises on the words exactly when it
    raises on their first five letters. *)
Theorem reply_for_first_five (g t : Word) :
  reply_for g t = reply_for (take 5 g) (take 5 t).
Proof.
  destruct (decide (5 ≤ length g ∧ 5 ≤ length t)) as [[Hg Ht]|Hshort].
  - rewrite !reply_for_encode by (rewrite ?length_take; lia).
    unfold pairs5. by rewrite !take_take.
  - rewrite !reply_for_short; [done| |lia].
    rewrite !length_take. lia.
Qed.

Lemma marked_zero_lookup (c : ascii) (g : Word) (r : Reply) (i : nat) (m : ascii) :
  marked c g r = 0 → g !! i = Some c → r !! i = Some m →
  m ≠ Green ∧ m ≠ Yellow.
Proof.
  unfold marked. intros Hzero Hg Hr.
  apply length_zero_iff_nil in Hzero.
  assert ((c, m) ∈ zip g r) as Hin.
  { apply list_elem_of_lookup. exists i. apply lookup_zip_with_Some. eauto. }
  assert ((c, m) ∉ filter (λ p, p.1 = c ∧ (p.2 = Green ∨ p.2 = Yellow)) (zip g r))
    as Hnin by (rewrite Hzero; apply not_elem_of_nil).
  rewrite list_elem_of_filter in Hnin. cbn in Hnin. tauto.
Qed.

(** A letter of the guess that does not occur in the target is marked Miss. *)
Theorem reply_for_absent_letter (g t : Word) (r : Reply) (i : nat) (c : ascii) :
  reply_for g t = Some r → i < 5 → g !! i = Some c → c ∉ t →
  r !! i = Some Miss.
Proof.
  intros Hr Hi Hg Hc.
  assert (5 ≤ length g ∧ 5 ≤ length t) as [Hlg Hlt].
  { apply reply_for_is_Some. eauto. }
  pose proof Hr as Hr0. rewrite reply_for_encode in Hr by done.
  injection Hr as Hr.
  assert (length r = 5) as Hlen.
  { by rewrite <- Hr; unfold encode; rewrite mark_pairs_length, pairs5_length. }
  destruct (lookup_lt_is_Some_2 r i) as [m Hm]; [lia|].
  assert (marked c g r = 0) as Hzero.
  { pose proof (marked_encode c g t Hlg Hlt) as Hle. rewrite Hr in Hle.
    assert (occurrences c (take 5 t) = 0); [|lia].
    unfold occurrences. apply length_zero_iff_nil, elem_of_nil_inv.
    intros x [-> Hin]%list_elem_of_filter. apply Hc.
    by apply (subseteq_take 5 t). }
  destruct (marked_zero_lookup c g r i m Hzero Hg Hm) as [HG HY].
  assert (Forall (λ m, m = Green ∨ m = Yellow ∨ m = Miss) r) as Hsym.
  { rewrite <- Hr. apply mark_pairs_symbols. }
  rewrite Forall_lookup in Hsym. destruct (Hsym _ _ Hm) as [?|[?| ->]]; done.
Qed.

Lemma reply_for_absent_letter_witness : str "...GY" !! 0 = Some Miss.
Proof.
  apply (reply_for_absent_letter (str "HELLO") (str "WORLD") _ 0 "H");
    [vm_compute; reflexivity|lia|reflexivity|].
  intros Hin. apply (bool_decide_pack _) in Hin. vm_compute in Hin. done.
Defined.

Lemma mark_pairs_exhausted (a : ascii) (ps : list (ascii * ascii)) :
  ∀ (c : gmap ascii Z) (j : nat) (b : ascii),
    (count_of c a ≤ 0)%Z → ps !! j = Some (a, b) →
    mark_pairs c ps !! j ≠ Some Yellow.
Proof.
  induction ps as [|[a' b'] ps IH]; intros c j b Hc Hj; [done|].
  cbn [mark_pairs]. destruct j as [|j].
  - injection Hj as -> ->. destruct (decide (a = b)); [done|].
    by rewrite decide_False by lia.
  - cbn in Hj. destruct (decide (a' = b')); [by eapply IH|].
    destruct (decide (0 < count_of c a')%Z); [|by eapply IH].
    eapply IH; [|done]. rewrite count_of_counter_dec. case_decide; lia.
Qed.

Lemma mark_pairs_priority (ps : list (ascii * ascii)) :
  ∀ (c : gmap ascii Z) (i j : nat) (a b b' : ascii),
    i < j → ps !! i = Some (a, b) → ps !! j = Some (a, b') →
    mark_pairs c ps !! i = Some Miss →
    mark_pairs c ps !! j ≠ Some Yellow.
Proof.
  induction ps as [|[a0 b0] ps IH]; intros c i j a b b' Hij Hi Hj Hmiss; [done|].
  destruct j as [|j]; [lia|]. cbn in Hj. cbn [mark_pairs] in *.
  destruct i as [|i].
  - injection Hi as -> ->. destruct (decide (a = b)); [done|].
    destruct (decide (0 < count_of c a)%Z); [done|].
    cbn. eapply mark_pairs_exhausted; [|done]. lia.
  - cbn in Hi. assert (i < j) by lia.
    destruct (decide (a0 = b0)); [by eapply IH|].
    destruct (decide (0 < count_of c a0)%Z); by eapply IH.
Qed.

(** Earlier positions claim the Yellow marks first: once a position of the
    guess is marked Miss, no later position holding the same letter is
    marked Yellow. *)
Theorem reply_for_priority (g t : Word) (r : Reply) (i j : nat) (c : ascii) :
  reply_for g t = Some r → i < j →
  g !! i = Some c → g !! j = Some c → r !! i = Some Miss →
  r !! j ≠ Some Yellow.
Proof.
  intros Hr Hij Hgi Hgj Hmiss.
  assert (5 ≤ length g ∧ 5 ≤ length t) as [Hlg Hlt].
  { apply reply_for_is_Some. eauto. }
  rewrite reply_for_encode in Hr by done. injection Hr as <-.
  unfold encode in *.
  destruct (decide (j < 5)) as [Hj|Hj].
  - destruct (lookup_lt_is_Some_2 t i) as [b Hb]; [lia|].
    destruct (lookup_lt_is_Some_2 t j) as [b' Hb']; [lia|].
    apply (mark_pairs_priority _ _ i j c b b'); [done| | |done];
      apply pairs5_lookup; split_and!; [lia|done..].
  - rewrite lookup_ge_None_2; [done|].
    rewrite mark_pairs_length, pairs5_length by done. lia.
Qed.

Lemma reply_for_priority_witness : str "Y..Y." !! 4 ≠ Some Yellow.
Proof.
  apply (reply_for_priority (str "ABACA") (str "CCCAC") _ 2 4 "A");
    [vm_compute; reflexivity|lia|reflexivity|reflexivity|reflexivity].
Defined.

(** ** The keys of a partition *)

Lemma nonempty_bins_count {A : Type} (l : list (list A)) :
  Forall (λ b, b ≠ []) l → length l ≤ length (concat l).
Proof.
  induction 1 as [|b l Hb _ IH]; cbn [concat length]; [done|].
  rewrite length_app. destruct b; [done|]. cbn [length]. lia.
Qed.

(** The keys of the bins are pairwise different, each is a tuple of one reply
    per guess, and there are at most as many bins as targets. *)
Theorem partition_keys (guesses targets : list Word) (p : Bins) :
  partition guesses targets = Some p →
  NoDup p.*1 ∧ Forall (λ k, length k = length guesses) p.*1 ∧
  length p ≤ length targets.
Proof.
  intros Hp.
  destruct (partition_well_binned _ _ _ Hp) as [(Hnd & Hkeyed & Hne) Hperm].
  split_and!; [done| |].
  - apply Forall_fmap. unfold keyed in Hkeyed.
    rewrite Forall_forall in Hkeyed, Hne |- *. intros [k b] Hin. cbn.
    specialize (Hkeyed _ Hin). specialize (Hne _ Hin). cbn in Hkeyed, Hne.
    destruct b as [|w b]; [done|]. apply Forall_cons in Hkeyed as [Hk _].
    symmetry. by apply (length_mapM _ _ _ Hk).
  - rewrite <- Hperm. etrans; [|apply nonempty_bins_count].
    + unfold values. by rewrite length_fmap.
    + unfold values. by apply Forall_fmap.
Qed.

Lemma partition_keys_witness :
  ∃ p, partition [str "HELLO"; str "WORLD"] few = Some p ∧
       NoDup p.*1 ∧
       Forall (λ k, length k = length [str "HELLO"; str "WORLD"]) p.*1 ∧
       length p ≤ length few.
Proof.
  eexists. split; [vm_compute; reflexivity|].
  apply (partition_keys [str "HELLO"; str "WORLD"] few).
  vm_compute. reflexivity.
Defined.

Lemma partition_loop_no_guesses (ts : list Word) :
  ∀ (t0 : Word) (b : list Word),
    foldM (λ d target, replies ← replies_of [] target;
                       Some (append_to replies target d)) [([], t0 :: b)] ts
    = Some [([], (t0 :: b) ++ ts)].
Proof.
  induction ts as [|t ts IH]; intros t0 b; cbn [foldM].
  { by rewrite app_nil_r. }
  change (replies_of [] t) with (Some ([] : list (list ascii))).
  cbn [mbind option_bind append_to]. rewrite decide_True by done.
  change ((t0 :: b) ++ [t]) with (t0 :: (b ++ [t])).
  rewrite (IH t0 (b ++ [t])). cbn [app]. by rewrite <- !app_assoc.
Qed.

(** With no guess at all nothing is encoded, so nothing can raise: an empty
    corpus gives no bin, and any other corpus gives the single bin of all
    targets under the empty key. *)
Theorem partition_no_guesses (targets : list Word) :
  partition [] targets
  = Some (match targets with [] => [] | _ :: _ => [([], targets)] end).
Proof.
  destruct targets as [|t ts]; [done|].
  unfold partition. cbn [foldM].
  change (replies_of [] t) with (Some ([] : list (list ascii))).
  cbn [mbind option_bind append_to]. apply (partition_loop_no_guesses ts t []).
Qed.

(** ** Bins as classes of targets with the same replies *)

Lemma filter_sublist_mono {A : Type} (P : A → Prop) `{∀ x, Decision (P x)}
    (l1 l2 : list A) :
  l1 `sublist_of` l2 → filter P l1 `sublist_of` filter P l2.
Proof.
  induction 1 as [|x l1 l2 _ IH|x l1 l2 _ IH]; rewrite ?filter_cons.
  - constructor.
  - case_decide; [by constructor|done].
  - case_decide; [by constructor|done].
Qed.

Lemma partition_loop_defined (gs ts : list Word) :
  ∀ d : Bins,
    is_Some (foldM (λ d target, replies ← replies_of gs target;
                                Some (append_to replies target d)) d ts)
    ↔ Forall (λ t, is_Some (replies_of gs t)) ts.
Proof.
  induction ts as [|t ts IH]; intros d; cbn [foldM].
  { split; [constructor|eauto]. }
  rewrite Forall_cons. destruct (replies_of gs t) as [k|]; cbn.
  - rewrite IH. split; [by split; [eauto|]|by intros [_ ?]].
  - split; [by intros [? ?]|by intros [[? ?] _]].
Qed.

(** [partition] returns exactly when every target can be encoded against
    every guess. *)
Lemma partition_defined (gs ts : list Word) :
  is_Some (partition gs ts) ↔ Forall (λ t, is_Some (replies_of gs t)) ts.
Proof. apply partition_loop_defined. Qed.

Lemma partition_bin_filter (gs ts : list Word) (p : Bins) :
  partition gs ts = Some p →
  (∀ k b, (k, b) ∈ p → b ≠ [] ∧ b = filter (λ t, replies_of gs t = Some k) ts) ∧
  (∀ k, k ∉ p.*1 → filter (λ t, replies_of gs t = Some k) ts = []).
Proof.
  intros Hp.
  destruct (partition_well_binned _ _ _ Hp) as [(_ & _ & Hne) _].
  apply (partition_loop_in_order gs ts []) in Hp as [Hbins Hfresh];
    [|apply NoDup_nil_2|by split; [constructor|]].
  split; [|done]. intros k b Hin. rewrite Forall_forall in Hne, Hbins.
  split; [apply (Hne _ Hin)|apply (Hbins _ Hin)].
Qed.

(** The bin of a target: a target whose tuple of replies is [k] lies in the
    bin of key [k]. *)
Lemma partition_bin_of (gs ts : list Word) (p : Bins) (t : Word) (k : Key) :
  partition gs ts = Some p → t ∈ ts → replies_of gs t = Some k →
  ∃ b, (k, b) ∈ p ∧ t ∈ b.
Proof.
  intros Hp Ht Hk. destruct (partition_bin_filter _ _ _ Hp) as [Hbins Hfresh].
  destruct (decide (k ∈ p.*1)) as [Hin|Hnin].
  - apply list_elem_of_fmap in Hin as ([k' b] & Hk' & Hin).
    cbn in Hk'. subst k'. exists b.
    split; [done|]. destruct (Hbins _ _ Hin) as [_ ->].
    apply list_elem_of_filter. done.
  - apply Hfresh in Hnin.
    assert (t ∈ filter (λ t, replies_of gs t = Some k) ts) as Hin
      by (by apply list_elem_of_filter).
    rewrite Hnin in Hin. by apply elem_of_nil in Hin.
Qed.

Lemma replies_of_app (gs1 gs2 : list Word) (t : Word) :
  replies_of (gs1 ++ gs2) t
  = k1 ← replies_of gs1 t; k2 ← replies_of gs2 t; Some (k1 ++ k2).
Proof.
  unfold replies_of. induction gs1 as [|g gs1 IH]; cbn [app mapM].
  { cbn. by destruct (mapM _ gs2). }
  destruct (reply_for g t) as [r|]; cbn [mbind option_bind]; [|done].
  rewrite IH. destruct (mapM _ gs1); cbn [mbind option_bind]; [|done].
  by destruct (mapM _ gs2).
Qed.

(** The replies to a sub-sequence of the guesses are read off the replies to
    the whole sequence. *)
Lemma replies_of_project (pre gs post : list Word) (t : Word) (k : Key) :
  replies_of (pre ++ gs ++ post) t = Some k →
  replies_of gs t = Some (take (length gs) (drop (length pre) k)).
Proof.
  rewrite !replies_of_app. intros Hk.
  destruct (replies_of pre t) as [k1|] eqn:H1; [|done].
  destruct (replies_of gs t) as [k2|] eqn:H2; [|done].
  destruct (replies_of post t) as [k3|] eqn:H3; [|done].
  cbn in Hk. injection Hk as <-.
  apply length_mapM in H1, H2. f_equal.
  rewrite drop_app_length' by done. by rewrite take_app_length' by done.
Qed.

(** More guesses only split bins: every bin under a longer sequence of
    guesses is, in order, part of a bin under the shorter one. *)
Lemma partition_refines (pre gs post ts : list Word) (p p' : Bins)
    (b' : list Word) :
  partition gs ts = Some p → partition (pre ++ gs ++ post) ts = Some p' →
  b' ∈ values p' → ∃ b, b ∈ values p ∧ b' `sublist_of` b.
Proof.
  intros Hp Hp' Hb'. unfold values in Hb'.
  apply list_elem_of_fmap in Hb' as ([k' b0] & -> & Hin). cbn [snd].
  destruct (partition_bin_filter _ _ _ Hp') as [Hbins' _].
  destruct (Hbins' _ _ Hin) as [Hne Heq].
  destruct b0 as [|t0 b0]; [done|].
  assert (t0 ∈ filter (λ t, replies_of (pre ++ gs ++ post) t = Some k') ts)
    as [Hk0 Ht0]%list_elem_of_filter by (rewrite <- Heq; by left).
  pose proof (replies_of_project _ _ _ _ _ Hk0) as Hproj.
  destruct (partition_bin_of _ _ _ _ _ Hp Ht0 Hproj) as (b & Hb & _).
  exists b. split.
  { unfold values. apply list_elem_of_fmap. eexists. split; [|exact Hb]. done. }
  destruct (partition_bin_filter _ _ _ Hp) as [Hbins _].
  destruct (Hbins _ _ Hb) as [_ ->]. rewrite Heq.
  rewrite <- (list_filter_filter_l _
                (λ t, replies_of gs t
                      = Some (take (length gs) (drop (length pre) k')))).
  - apply sublist_filter.
  - intros t. apply replies_of_project.
Qed.

Lemma filter_length_mono {A : Type} (P Q : A → Prop)
    `{∀ x, Decision (P x)} `{∀ x, Decision (Q x)} (l : list A) :
  (∀ x, P x → Q x) → length (filter P l) ≤ length (filter Q l).
Proof.
  intros HPQ. induction l as [|x l IH]; [done|]. rewrite !filter_cons.
  destruct (decide (P x)).
  - rewrite decide_True by auto. cbn [length]. lia.
  - case_decide; cbn [length]; lia.
Qed.

Lemma replies_of_single_Some (w t : Word) (k : Key) :
  replies_of [w] t = Some k ↔ ∃ r, k = [r] ∧ reply_for w t = Some r.
Proof.
  rewrite replies_of_single. destruct (reply_for w t) as [r|]; cbn.
  - split; [intros [= <-]; eauto|by intros (r' & -> & [= ->])].
  - split; [done|by intros (r' & _ & ?)].
Qed.

(** A word splits a bin into singletons exactly when it can be encoded
    against every word of the bin and no reply is given twice. *)
Lemma splits_into_singletons_iff (w : Word) (bin : list Word) :
  splits_into_singletons w bin ↔
  Forall (λ t, is_Some (reply_for w t)) bin ∧
  ∀ r, length (filter (λ t, reply_for w t = Some r) bin) ≤ 1.
Proof.
  assert (∀ r, filter (λ t, reply_for w t = Some r) bin
               = filter (λ t, replies_of [w] t = Some [r]) bin) as Hfilter.
  { intros r. apply list_filter_iff. intros t.
    rewrite replies_of_single_Some. naive_solver. }
  assert (Forall (λ t, is_Some (reply_for w t)) bin
          ↔ is_Some (partition [w] bin)) as Hdef.
  { rewrite partition_defined. apply Forall_iff. intros t.
    rewrite replies_of_single. by destruct (reply_for w t); cbn;
      rewrite <- ?not_eq_None_Some. }
  unfold splits_into_singletons. split.
  - intros (p5 & Hp5 & Hone). split; [apply Hdef; eauto|].
    intros r. rewrite Hfilter.
    destruct (partition_bin_filter _ _ _ Hp5) as [Hbins Hfresh].
    destruct (decide ([r] ∈ p5.*1)) as [Hin|Hnin].
    + apply list_elem_of_fmap in Hin as ([k b] & Hk & Hin).
      cbn in Hk. subst k.
      destruct (Hbins _ _ Hin) as [_ <-]. rewrite (Hone b); [done|].
      unfold values. apply list_elem_of_fmap. by exists ([r], b).
    + rewrite (Hfresh _ Hnin). cbn [length]. lia.
  - intros [Hall Hone]. apply Hdef in Hall as [p5 Hp5]. exists p5.
    split; [done|]. intros bin5 Hin. unfold values in Hin.
    apply list_elem_of_fmap in Hin as ([k b] & -> & Hin). cbn [snd].
    destruct (partition_bin_filter _ _ _ Hp5) as [Hbins _].
    destruct (Hbins _ _ Hin) as [Hne Heq].
    destruct b as [|t0 b]; [done|].
    assert (t0 ∈ filter (λ t, replies_of [w] t = Some k) bin)
      as [Hk0 _]%list_elem_of_filter by (rewrite <- Heq; by left).
    apply replies_of_single_Some in Hk0 as (r & -> & _).
    specialize (Hone r). rewrite Hfilter, <- Heq in Hone.
    cbn [length] in *. lia.
Qed.

Lemma splits_into_singletons_sublist (w : Word) (bin bin' : list Word) :
  bin' `sublist_of` bin →
  splits_into_singletons w bin → splits_into_singletons w bin'.
Proof.
  intros Hsub. rewrite !splits_into_singletons_iff. intros [Hall Hone]. split.
  - rewrite Forall_forall in Hall |- *. intros t Ht. apply Hall.
    by eapply elem_of_sublist.
  - intros r. etrans; [|apply (Hone r)].
    by apply sublist_length, filter_sublist_mono.
Qed.

Lemma can_win_true (guesses targets : list Word) :
  can_win guesses targets = Some true ↔ can_win_spec guesses targets.
Proof.
  unfold can_win, can_win_spec.
  destruct (partition guesses targets) as [p|]; cbn.
  - rewrite allM_true. split.
    + intros Hall. exists p. split; [done|]. intros bin Hin.
      specialize (Hall _ Hin). case_bool_decide; [left; lia|right].
      intros w Hw. apply can_win_bin_true.
      by apply (proj1 (allM_true _ _) Hall).
    + intros (p' & [= <-] & Hall) bin Hin.
      case_bool_decide; [done|].
      destruct (Hall _ Hin) as [Hle|Hsplit]; [lia|].
      apply allM_true. intros w Hw. apply can_win_bin_true. by apply Hsplit.
  - split; [done|]. by intros (p & ? & _).
Qed.

(** Monotonicity: guesses added before or after a winning sequence of guesses
    keep it winning, when the added guesses and the targets can be encoded. *)
Theorem can_win_more_guesses (pre guesses post targets : list Word) :
  Forall (λ g, 5 ≤ length g) (pre ++ post) →
  Forall (λ t, 5 ≤ length t) targets →
  can_win guesses targets = Some true →
  can_win (pre ++ guesses ++ post) targets = Some true.
Proof.
  intros [Hpre Hpost]%Forall_app Hts.
  rewrite !can_win_true. intros (p & Hp & Hok).
  assert (is_Some (partition (pre ++ guesses ++ post) targets)) as [p' Hp'].
  { apply partition_defined.
    assert (Forall (λ t, is_Some (replies_of guesses t)) targets) as Hdef
      by (apply partition_defined; eauto).
    rewrite Forall_forall in Hdef, Hts |- *. intros t Ht.
    rewrite !replies_of_app.
    destruct (replies_of_is_Some pre t Hpre (Hts _ Ht)) as [k1 ->].
    destruct (Hdef _ Ht) as [k2 ->].
    destruct (replies_of_is_Some post t Hpost (Hts _ Ht)) as [k3 ->].
    cbn. eauto. }
  exists p'. split; [done|]. intros b' Hb'.
  destruct (partition_refines _ _ _ _ _ _ _ Hp Hp' Hb') as (b & Hb & Hsub).
  destruct (Hok _ Hb) as [Hle|Hsplit].
  - left. apply sublist_length in Hsub. lia.
  - right. intros w Hw. apply (splits_into_singletons_sublist w b); [done|].
    apply Hsplit. by eapply elem_of_sublist.
Qed.

Lemma can_win_more_guesses_witness :
  can_win ([str "WORLD"] ++ [str "HELLO"] ++ [str "CELLO"]) few = Some true.
Proof.
  apply can_win_more_guesses.
  - apply (bool_decide_unpack _). vm_compute. exact I.
  - apply (bool_decide_unpack _). vm_compute. exact I.
  - vm_compute. reflexivity.
Defined.

(** Adding guesses before or after a sequence of guesses only splits bins:
    every bin under the longer sequence is, in order, part of a bin under
    the shorter one. *)
Theorem partition_more_guesses (pre guesses post targets : list Word)
    (p p' : Bins) (b' : list Word) :
  partition guesses targets = Some p →
  partition (pre ++ guesses ++ post) targets = Some p' →
  b' ∈ values p' → ∃ b, b ∈ values p ∧ b' `sublist_of` b.
Proof. apply partition_refines. Qed.

Lemma partition_more_guesses_witness :
  ∃ b, b ∈ [[str "HELLO"]; [str "WORLD"]; [str "CELLO"]; [str "ALLEY"];
            [str "HEAVY"; str "HEART"]; [str "ALLAY"; str "LILAC"]]
       ∧ [str "HEART"] `sublist_of` b.
Proof.
  apply (partition_more_guesses [] [str "HELLO"] [str "WORLD"] few
           [([str "GGGGG"], [str "HELLO"]); ([str "...GY"], [str "WORLD"]);
            ([str ".GGGG"], [str "CELLO"]); ([str ".YGY."], [str "ALLEY"]);
            ([str "GG..."], [str "HEAVY"; str "HEART"]);
            ([str "..GY."], [str "ALLAY"; str "LILAC"])]
           [([str "GGGGG"; str ".Y.G."], [str "HELLO"]);
            ([str "...GY"; str "GGGGG"], [str "WORLD"]);
            ([str ".GGGG"; str ".Y.G."], [str "CELLO"]);
            ([str ".YGY."; str "...Y."], [str "ALLEY"]);
            ([str "GG..."; str "....."], [str "HEAVY"]);
            ([str "GG..."; str "..Y.."], [str "HEART"]);
            ([str "..GY."; str "...Y."], [str "ALLAY"; str "LILAC"])]).
  - vm_compute. reflexivity.
  - vm_compute. reflexivity.
  - do 5 right. left.
Defined.

(** [can_win_bin guess bin] returns true exactly when the guess can be
    encoded against every word of the bin and no two positions of the bin
    get the same reply; it raises exactly when some word of the bin cannot
    be encoded against the guess. *)
Theorem can_win_bin_distinct_replies (guess : Word) (bin : list Word) :
  (can_win_bin guess bin = Some true ↔
   Forall (λ t, is_Some (reply_for guess t)) bin ∧
   ∀ r, length (filter (λ t, reply_for guess t = Some r) bin) ≤ 1) ∧
  (can_win_bin guess bin = None ↔
   ∃ t, t ∈ bin ∧ reply_for guess t = None).
Proof.
  split.
  - rewrite can_win_bin_true. apply splits_into_singletons_iff.
  - unfold can_win_bin.
    assert (partition [guess] bin = None
            ↔ ∃ t, t ∈ bin ∧ reply_for guess t = None) as Hnone.
    { rewrite eq_None_not_Some, partition_defined, <- Exists_Forall_neg
        by (intros t; destruct (replies_of [guess] t);
            [left; eauto|right; by intros [? ?]]).
      rewrite Exists_exists. apply exist_proper. intros t.
      rewrite replies_of_single, <- eq_None_not_Some.
      destruct (reply_for guess t); cbn; naive_solver. }
    rewrite <- Hnone. destruct (partition [guess] bin) as [p|]; cbn; [|done].
    split; [|done]. intros Hall. exfalso. revert Hall.
    generalize (values p). intros l. induction l as [|b l IH]; [done|].
    cbn. by case_bool_decide.
Qed.

(** ** When the verifier returns, and what a repeated word does to it *)

Lemma allM_is_Some {A : Type} (f : A → option bool) (l : list A) :
  (∀ x, x ∈ l → is_Some (f x)) → is_Some (allM f l).
Proof.
  induction l as [|x l IH]; intros Hall; cbn [allM]; [eauto|].
  destruct (Hall x) as [[] ->]; [by left| |]; cbn; [|eauto].
  apply IH. intros y Hy. apply Hall. by right.
Qed.

Lemma can_win_bin_is_Some (w : Word) (bin : list Word) :
  5 ≤ length w → Forall (λ t, 5 ≤ length t) bin → is_Some (can_win_bin w bin).
Proof.
  intros Hw Hbin. unfold can_win_bin.
  destruct (partition_is_Some [w] bin) as [p ->]; [by constructor|done|].
  cbn. apply allM_is_Some. eauto.
Qed.

Lemma can_win_is_Some (gs ts : list Word) :
  Forall (λ g, 5 ≤ length g) gs → Forall (λ t, 5 ≤ length t) ts →
  is_Some (can_win gs ts).
Proof.
  intros Hgs Hts. unfold can_win.
  destruct (partition_is_Some gs ts Hgs Hts) as [p Hp]. rewrite Hp. cbn.
  apply partition_well_binned in Hp as [_ Hperm].
  assert (∀ bin w, bin ∈ values p → w ∈ bin → 5 ≤ length w) as Hlen.
  { intros bin w Hbin Hw. rewrite Forall_forall in Hts. apply Hts.
    rewrite <- Hperm. by apply (elem_of_concat_bin _ bin). }
  apply allM_is_Some. intros bin Hbin. case_bool_decide; [eauto|].
  apply allM_is_Some. intros w Hw. apply can_win_bin_is_Some; [by eapply Hlen|].
  apply Forall_forall. intros t Ht. by eapply Hlen.
Qed.

Lemma not_NoDup_repeated (ts : list Word) :
  ¬ NoDup ts → ∃ t, 2 ≤ length (filter (λ x, x = t) ts).
Proof.
  induction ts as [|t0 ts IH]; intros Hdup.
  { destruct Hdup. constructor. }
  destruct (decide (t0 ∈ ts)) as [Hin|Hnin].
  - exists t0. rewrite filter_cons, decide_True by done. cbn [length].
    assert (t0 ∈ filter (λ x, x = t0) ts) as Hf by (by apply list_elem_of_filter).
    destruct (filter (λ x, x = t0) ts); [by apply elem_of_nil in Hf|].
    cbn [length]. lia.
  - destruct IH as [t Ht].
    { intros Hnd. apply Hdup. by constructor. }
    exists t. rewrite filter_cons. case_decide; cbn [length]; lia.
Qed.

(** On words that can be encoded the verifier returns a verdict, and the
    verdict on a corpus that lists some word twice is always false: the two
    copies can never be told apart. *)
Theorem can_win_repeated_word (guesses targets : list Word) :
  Forall (λ g, 5 ≤ length g) guesses → Forall (λ t, 5 ≤ length t) targets →
  is_Some (can_win guesses targets) ∧
  (¬ NoDup targets → can_win guesses targets = Some false).
Proof.
  intros Hgs Hts. split; [by apply can_win_is_Some|]. intros Hdup.
  destruct (can_win_is_Some _ _ Hgs Hts) as [[] Hb]; [exfalso|done].
  apply can_win_true in Hb as (p & Hp & Hok).
  destruct (not_NoDup_repeated _ Hdup) as [t Hrep].
  assert (t ∈ targets) as Ht.
  { destruct (filter (λ x, x = t) targets) as [|x l] eqn:Hf; [cbn in Hrep; lia|].
    assert (x ∈ filter (λ x, x = t) targets) as [-> ?]%list_elem_of_filter
      by (rewrite Hf; by left).
    done. }
  assert (5 ≤ length t) as Hlt by (rewrite Forall_forall in Hts; auto).
  destruct (replies_of_is_Some guesses t Hgs Hlt) as [k Hk].
  destruct (partition_bin_of _ _ _ _ _ Hp Ht Hk) as (b & Hb & Htb).
  destruct (partition_bin_filter _ _ _ Hp) as [Hbins _].
  destruct (Hbins _ _ Hb) as [_ Heq].
  assert (2 ≤ length (filter (λ x, x = t) b)) as Hrep'.
  { rewrite Heq, list_filter_filter_l; [done|]. by intros x ->. }
  assert (b ∈ values p) as Hbv.
  { unfold values. apply list_elem_of_fmap. by exists (k, b). }
  destruct (Hok _ Hbv) as [Hle|Hsplit].
  - pose proof (sublist_length _ _ (sublist_filter (λ x, x = t) b)). lia.
  - apply Hsplit in Htb. apply splits_into_singletons_iff in Htb as [Hall Hone].
    destruct (reply_for_is_Some t t) as [_ [r Hr]]; [done|].
    specialize (Hone r).
    pose proof (filter_length_mono (λ x, x = t)
                  (λ x, reply_for t x = Some r) b) as Hmono.
    assert (∀ x, x = t → reply_for t x = Some r) as Himp by (by intros x ->).
    specialize (Hmono Himp). lia.
Qed.

Lemma can_win_repeated_word_witness :
  is_Some (can_win [str "WORLD"] [str "HELLO"; str "HELLO"]) ∧
  can_win [str "WORLD"] [str "HELLO"; str "HELLO"] = Some false.
Proof.
  destruct (can_win_repeated_word [str "WORLD"] [str "HELLO"; str "HELLO"])
    as [Hsome Hfalse].
  - apply (bool_decide_unpack _). vm_compute. exact I.
  - apply (bool_decide_unpack _). vm_compute. exact I.
  - split; [done|]. apply Hfalse.
    intros Hnd. apply (bool_decide_pack _) in Hnd. vm_compute in Hnd. done.
Defined.

(** * More on the bin statistics *)

Lemma sum_bin_sizes (bins : list (list Word)) :
  foldr Z.add 0%Z (bin_size <$> bins) = Z.of_nat (length (concat bins)).
Proof.
  induction bins as [|b bins IH]; [done|].
  cbn [fmap list_fmap foldr concat]. rewrite IH, length_app.
  unfold bin_size. lia.
Qed.

(** The sizes listed by [bin_sizes] are all positive, there are at most as
    many of them as words, and they add up to the number of words. *)
Theorem bin_sizes_total (words : list Word) (guess : Word) (sizes : list Z) :
  bin_sizes words guess = Some sizes →
  Forall (λ n, 1 ≤ n)%Z sizes ∧ length sizes ≤ length words ∧
  foldr Z.add 0%Z sizes = Z.of_nat (length words).
Proof.
  rewrite bin_sizes_partition.
  destruct (partition [guess] words) as [p|] eqn:Hp; [|done].
  intros [= <-].
  destruct (partition_well_binned _ _ _ Hp) as [(_ & _ & Hne) Hperm].
  split_and!.
  - unfold values. rewrite <- list_fmap_compose. apply Forall_fmap.
    eapply Forall_impl; [exact Hne|]. intros [k b] Hb. cbn in *.
    unfold bin_size. destruct b; [done|]. cbn [length]. lia.
  - rewrite length_fmap, <- Hperm. apply nonempty_bins_count.
    unfold values. by apply Forall_fmap.
  - by rewrite sum_bin_sizes, Hperm.
Qed.

Lemma bin_sizes_total_witness :
  Forall (λ n, 1 ≤ n)%Z [1; 1; 1; 1; 2; 2]%Z ∧
  length [1; 1; 1; 1; 2; 2]%Z ≤ length few ∧
  foldr Z.add 0%Z [1; 1; 1; 1; 2; 2]%Z = Z.of_nat (length few).
Proof.
  apply (bin_sizes_total few (str "HELLO")). vm_compute. reflexivity.
Defined.

Lemma filter_eq_NoDup (l : list Word) (x : Word) :
  NoDup l → x ∈ l → filter (λ y, y = x) l = [x].
Proof.
  induction 1 as [|y l Hy Hnd IH]; intros Hx; [by apply elem_of_nil in Hx|].
  rewrite filter_cons. destruct (decide (y = x)) as [->|Hne].
  - f_equal. apply elem_of_nil_inv. intros z [-> Hz]%list_elem_of_filter. done.
  - apply IH. by apply elem_of_cons in Hx as [->|Hx].
Qed.

Lemma filter_iff_in {A : Type} (P Q : A → Prop)
    `{∀ x, Decision (P x)} `{∀ x, Decision (Q x)} (l : list A) :
  (∀ x, x ∈ l → P x ↔ Q x) → filter P l = filter Q l.
Proof.
  induction l as [|x l IH]; intros HPQ; [done|]. rewrite !filter_cons.
  rewrite IH by (intros y Hy; apply HPQ; by right).
  apply decide_ext, HPQ. by left.
Qed.

(** A word of a duplicate-free corpus of five-letter words, played as the
    first guess, leaves itself alone in its bin, so it guarantees at least
    one win. *)
Theorem wins_own_word (words : list Word) (guess : Word) :
  NoDup words → Forall (λ w, length w = 5) words → guess ∈ words →
  ∃ n, wins words guess = Some n ∧ 1 ≤ n.
Proof.
  intros Hnd Hlen Hin. rewrite Forall_forall in Hlen.
  unfold wins. rewrite bin_sizes_partition.
  destruct (partition_is_Some [guess] words) as [p Hp].
  { constructor; [|constructor]. rewrite (Hlen _ Hin). lia. }
  { apply Forall_forall. intros t Ht. rewrite (Hlen _ Ht). lia. }
  rewrite Hp. cbn. eexists. split; [done|]. rewrite count_singletons.
  assert (replies_of [guess] guess = Some [str "GGGGG"]) as Hk.
  { apply replies_of_single_Some. eexists. split; [done|].
    rewrite reply_for_encode by (rewrite (Hlen _ Hin); lia).
    f_equal. apply encode_all_green; auto. }
  destruct (partition_bin_of _ _ _ _ _ Hp Hin Hk) as (b & Hb & _).
  destruct (partition_bin_filter _ _ _ Hp) as [Hbins _].
  destruct (Hbins _ _ Hb) as [_ Heq].
  assert (b = [guess]) as ->.
  { rewrite Heq. etrans; [|by apply (filter_eq_NoDup words guess)].
    apply filter_iff_in. intros t Ht. rewrite replies_of_single_Some. split.
    - intros (r & [= <-] & Hr).
      rewrite reply_for_encode in Hr by (rewrite ?(Hlen _ Hin), ?(Hlen _ Ht); lia).
      injection Hr as Hr. symmetry. apply (encode_all_green guess t); auto.
    - intros ->. eexists. split; [done|].
      rewrite reply_for_encode by (rewrite (Hlen _ Hin); lia).
      f_equal. apply encode_all_green; auto. }
  assert ([guess] ∈ filter (λ bin, length bin = 1) (values p)) as Hone.
  { apply list_elem_of_filter. split; [done|].
    unfold values. apply list_elem_of_fmap. by exists ([str "GGGGG"], [guess]). }
  destruct (filter _ (values p)); [by apply elem_of_nil in Hone|].
  cbn [length]. lia.
Qed.

Lemma wins_own_word_witness : ∃ n, wins few (str "HELLO") = Some n ∧ 1 ≤ n.
Proof.
  apply wins_own_word.
  - apply (bool_decide_unpack _). vm_compute. exact I.
  - apply (bool_decide_unpack _). vm_compute. exact I.
  - left.
Defined.

(** * More on the candidate generator *)

Lemma scan_first (rest : gset ascii → option (list Word)) (letters : gset ascii)
    (ws : list Word) (w : Word) (r : list Word) :
  scan rest letters ws = Some (w :: r) →
  ∃ before after,
    ws = before ++ w :: after ∧ fits letters w ∧
    rest (letters ∖ set_of w) = Some r ∧
    ∀ w', w' ∈ before →
          ¬ fits letters w' ∨ rest (letters ∖ set_of w') = None.
Proof.
  induction ws as [|w0 ws IH]; cbn [scan]; [done|].
  assert (scan rest letters ws = Some (w :: r) →
          (¬ fits letters w0 ∨ rest (letters ∖ set_of w0) = None) →
          ∃ before after,
            w0 :: ws = before ++ w :: after ∧ fits letters w ∧
            rest (letters ∖ set_of w) = Some r ∧
            ∀ w', w' ∈ before →
                  ¬ fits letters w' ∨ rest (letters ∖ set_of w') = None) as Htl.
  { intros (before & after & -> & Hfit & Hrest & Hrej)%IH Hrej0.
    exists (w0 :: before), after. split_and!; [done..|].
    intros w' [->|Hw']%elem_of_cons; auto. }
  fold (fits letters w0). destruct (decide (fits letters w0)) as [Hfit|Hfit].
  - destruct (rest (letters ∖ set_of w0)) as [r0|] eqn:Hr0.
    + intros [= <- <-]. exists [], ws. split_and!; [done..|].
      by intros w' ?%elem_of_nil.
    + intros Hs. apply Htl; auto.
  - intros Hs. apply Htl; auto.
Qed.

(** First fit: the first word of a returned tuple is the first word of the
    pool, in pool order, that passes the letter test and under which the
    search for the remaining words succeeds; the rest of the tuple is the
    result of that search. *)
Theorem disjoint_words_first_fit (n : Z) (pool : list Word)
    (budget : gset ascii) (w : Word) (r : list Word) :
  disjoint_words n pool budget = Some (w :: r) →
  ∃ before after,
    pool = before ++ w :: after ∧ fits budget w ∧
    disjoint_words (n - 1) pool (budget ∖ set_of w) = Some r ∧
    ∀ w', w' ∈ before →
          ¬ fits budget w' ∨
          disjoint_words (n - 1) pool (budget ∖ set_of w') = None.
Proof.
  rewrite disjoint_words_unfold. case_decide; [done|]. apply scan_first.
Qed.

Lemma disjoint_words_first_fit_witness :
  ∃ before after,
    map str ["ABHOR"; "BLEAT"; "HELLO"; "CLEFT"]%string
    = before ++ str "CLEFT" :: after ∧
    fits (letters ∖ set_of (str "ABHOR")) (str "CLEFT") ∧
    disjoint_words (1 - 1) (map str ["ABHOR"; "BLEAT"; "HELLO"; "CLEFT"]%string)
      (letters ∖ set_of (str "ABHOR") ∖ set_of (str "CLEFT")) = Some [] ∧
    ∀ w', w' ∈ before →
          ¬ fits (letters ∖ set_of (str "ABHOR")) w' ∨
          disjoint_words (1 - 1)
            (map str ["ABHOR"; "BLEAT"; "HELLO"; "CLEFT"]%string)
            (letters ∖ set_of (str "ABHOR") ∖ set_of w') = None.
Proof.
  apply (disjoint_words_first_fit 1). vm_compute. reflexivity.
Defined.

(** No tuple is returned for a negative [n], nor when [n] words would need
    more letters than the budget holds; the search then ends with the
    no-solution result. *)
Theorem disjoint_words_too_many (n : Z) (pool : list Word) (budget : gset ascii) :
  (n < 0 ∨ Z.of_nat (size budget) < 5 * n)%Z →
  disjoint_words n pool budget = None.
Proof.
  intros Hn. destruct (disjoint_words n pool budget) as [l|] eqn:Hl; [|done].
  apply disjoint_words_chosen in Hl as [Hlen Hch].
  apply chosen_union in Hch as [Hsub Hsize]. apply subseteq_size in Hsub. lia.
Qed.

Lemma disjoint_words_too_many_witness :
  disjoint_words 5 (map str ["ABHOR"; "CLEFT"; "DUMPY"; "SWING"]%string) letters
  = None.
Proof.
  apply disjoint_words_too_many. right. vm_compute. reflexivity.
Defined.

(** * Ranking *)

Example top_wins_few :
  top Nat.ltb (λ _ _ : list ascii, false) 5 few (Some (wins few))
  = Some [(str "HEAVY", 8); (str "CELLO", 6); (str "ALLEY", 6);
          (str "HEART", 6); (str "ALLAY", 6)].
Proof. vm_compute. reflexivity. Qed.

(** ** The stable sort *)

Section StableSort.
Context {C B : Type} (lt : C → C → bool).
Hypothesis lt_asym : ∀ a b, lt a b = true → lt b a = false.
Hypothesis lt_trans : ∀ a b c, lt b a = false → lt c b = false → lt c a = false.

Lemma insert_stable_perm (x : C * B) (l : list (C * B)) :
  insert_stable lt x l ≡ₚ x :: l.
Proof.
  induction l as [|y l IH]; cbn [insert_stable]; [done|].
  destruct (lt y.1 x.1); [|done]. rewrite IH. apply Permutation_swap.
Qed.

Lemma stable_sort_perm (l : list (C * B)) : stable_sort lt l ≡ₚ l.
Proof.
  unfold stable_sort. induction l as [|x l IH]; cbn [foldr]; [done|].
  by rewrite insert_stable_perm, IH.
Qed.

Lemma insert_stable_sorted (x : C * B) (l : list (C * B)) :
  StronglySorted (ordered lt) l → StronglySorted (ordered lt) (insert_stable lt x l).
Proof.
  induction 1 as [|y l Hl IH Hy]; cbn [insert_stable].
  { repeat constructor. }
  destruct (lt y.1 x.1) eqn:Hyx.
  - constructor; [done|]. rewrite insert_stable_perm. constructor; [|done].
    unfold ordered. by apply lt_asym.
  - constructor; [by constructor|]. constructor; [done|].
    eapply Forall_impl; [exact Hy|]. intros z Hz. unfold ordered in *.
    by apply (lt_trans _ y.1).
Qed.

Lemma stable_sort_sorted (l : list (C * B)) :
  StronglySorted (ordered lt) (stable_sort lt l).
Proof.
  unfold stable_sort. induction l as [|x l IH]; cbn [foldr]; [constructor|].
  by apply insert_stable_sorted.
Qed.

Lemma insert_stable_tied (c : C) (x : C * B) (l : list (C * B)) :
  filter (λ p, tied lt p.1 c) (insert_stable lt x l)
  = filter (λ p, tied lt p.1 c) (x :: l).
Proof.
  induction l as [|y l IH]; cbn [insert_stable]; [done|].
  destruct (lt y.1 x.1) eqn:Hyx; [|done].
  rewrite filter_cons, IH, !filter_cons.
  destruct (decide (tied lt x.1 c)) as [[Hx1 Hx2]|]; [|done].
  assert (¬ tied lt y.1 c) as Hny.
  { intros [Hy1 Hy2]. rewrite (lt_trans x.1 c y.1) in Hyx; done. }
  by rewrite !(decide_False (P := tied lt y.1 c)) by done.
Qed.

(** Stability: elements with tied keys keep their order. *)
Lemma stable_sort_tied (c : C) (l : list (C * B)) :
  filter (λ p, tied lt p.1 c) (stable_sort lt l) = filter (λ p, tied lt p.1 c) l.
Proof.
  unfold stable_sort. induction l as [|x l IH]; cbn [foldr]; [done|].
  by rewrite insert_stable_tied, !filter_cons, IH.
Qed.
End StableSort.

(** ** Building the dictionary of a ranking *)

Lemma dict_set_fresh {A V : Type} `{EqDecision A} (k : A) (v : V)
    (d : list (A * V)) :
  k ∉ d.*1 → dict_set k v d = d ++ [(k, v)].
Proof.
  induction d as [|[k' v'] d IH]; intros Hk; cbn [dict_set]; [done|].
  cbn [fmap list_fmap fst] in Hk. apply not_elem_of_cons in Hk as [Hne Hk].
  rewrite decide_False by done. cbn [app]. f_equal. by apply IH.
Qed.

Lemma dict_set_same {A V : Type} `{EqDecision A} (k : A) (v : V)
    (d : list (A * V)) :
  NoDup d.*1 → (k, v) ∈ d → dict_set k v d = d.
Proof.
  induction d as [|[k' v'] d IH]; intros Hnd Hin; cbn [dict_set].
  { by apply elem_of_nil in Hin. }
  cbn [fmap list_fmap fst] in Hnd. apply NoDup_cons in Hnd as [Hk' Hnd].
  apply elem_of_cons in Hin as [[= <- <-]|Hin].
  - by rewrite decide_True.
  - rewrite decide_False; [f_equal; by apply IH|].
    intros ->. apply Hk'. apply list_elem_of_fmap. by exists (k, v).
Qed.

Lemma StronglySorted_sublist {A : Type} (R : relation A) (l1 l2 : list A) :
  l1 `sublist_of` l2 → StronglySorted R l2 → StronglySorted R l1.
Proof.
  induction 1 as [|x l1 l2 Hsub IH|x l1 l2 Hsub IH]; intros Hs.
  - constructor.
  - apply StronglySorted_cons in Hs as [Hx Hs]. constructor; [auto|].
    rewrite Forall_forall in Hx |- *. intros y Hy. apply Hx.
    by eapply elem_of_sublist.
  - apply StronglySorted_cons in Hs as [_ Hs]. auto.
Qed.

Section RankingFacts.
Context {A K : Type} `{EqDecision A}.
Variable key : A → option K.

Lemma ranking_loop (l : list (K * A)) :
  ∀ (pre : list (K * A)) (d0 : list (A * K)),
    Forall (λ p, key p.2 = Some p.1) (pre ++ l) →
    NoDup d0.*1 → d0 `sublist_of` (prod_swap <$> pre) →
    (∀ p, p ∈ pre → p.2 ∈ d0.*1) →
    ∃ d, foldM (λ d item, v ← call_key (Some key) item;
                          Some (dict_set item v d)) d0 l.*2 = Some d ∧
         NoDup d.*1 ∧ d `sublist_of` (prod_swap <$> (pre ++ l)) ∧
         ∀ p, p ∈ pre ++ l → p.2 ∈ d.*1.
Proof.
  induction l as [|[c x] l IH]; intros pre d0 Hkey Hnd Hsub Hall.
  { exists d0. rewrite app_nil_r. done. }
  assert (key x = Some c) as Hx.
  { rewrite Forall_forall in Hkey. apply (Hkey (c, x)).
    apply elem_of_app. right. by left. }
  cbn [fmap list_fmap snd foldM call_key]. rewrite Hx. cbn [mbind option_bind].
  assert ((x ∈ d0.*1 ∧ dict_set x c d0 = d0) ∨
          ((x ∉ d0.*1) ∧ dict_set x c d0 = d0 ++ [(x, c)])) as Hcase.
  { destruct (decide (x ∈ d0.*1)) as [Hin|Hnin];
      [left|right; split; [done|by apply dict_set_fresh]].
    split; [done|]. apply dict_set_same; [done|].
    apply list_elem_of_fmap in Hin as ([x' v] & Hx' & Hin). cbn in Hx'.
    subst x'. assert ((v, x) ∈ pre) as Hpre.
    { eapply elem_of_sublist in Hin; [|exact Hsub].
      apply list_elem_of_fmap in Hin as ([v' x'] & [= -> ->] & Hin). done. }
    rewrite Forall_forall in Hkey. specialize (Hkey (v, x)). cbn in Hkey.
    rewrite Hx in Hkey. assert (Some c = Some v) as [= ->]; [|done].
    apply Hkey. apply elem_of_app. by left. }
  replace (pre ++ (c, x) :: l) with ((pre ++ [(c, x)]) ++ l) in *
    by (by rewrite <- app_assoc).
  apply IH; [done| | |].
  - destruct Hcase as [[Hin ->]|[Hnin ->]]; [done|].
    rewrite fmap_app. apply NoDup_app.
    split_and!; [done| |apply NoDup_singleton].
    intros y Hy ->%list_elem_of_singleton. done.
  - rewrite fmap_app. destruct Hcase as [[Hin ->]|[Hnin ->]].
    + by apply sublist_inserts_r.
    + by apply sublist_app.
  - intros p [Hp| ->%list_elem_of_singleton]%elem_of_app.
    + destruct Hcase as [[Hin ->]|[Hnin ->]]; [auto|].
      rewrite fmap_app. apply elem_of_app. auto.
    + cbn [snd]. destruct Hcase as [[Hin ->]|[Hnin ->]]; [done|].
      rewrite fmap_app. apply elem_of_app. right. by left.
Qed.
End RankingFacts.

Lemma prod_swap_swap_fmap {A B : Type} (l : list (A * B)) :
  prod_swap <$> (prod_swap <$> l) = l.
Proof. induction l as [|[a b] l IH]; [done|]. cbn. by rewrite IH. Qed.

Section RankSpec.
Context {A K : Type} `{EqDecision A}.
Variable cmp : K → K → bool.
Hypothesis cmp_asym : ∀ a b, cmp a b = true → cmp b a = false.
Hypothesis cmp_trans :
  ∀ a b c, cmp b a = false → cmp c b = false → cmp c a = false.
Variable key : A → option K.

Lemma py_prefix_take {B : Type} (n : Z) (l : list B) :
  ∃ m, py_prefix n l = take m l ∧ ((0 ≤ n)%Z → m = Z.to_nat n).
Proof.
  unfold py_prefix. case_decide; eexists; (split; [done|]); [done|lia].
Qed.

(** What a ranking by a stable sort under [cmp] satisfies. *)
Lemma rank_spec (n : Z) (items : list A) (dec : list (K * A))
    (d : list (A * K)) :
  mapM (λ x, c ← key x; Some (c, x)) items = Some dec →
  ranking (Some key) (py_prefix n (stable_sort cmp dec).*2) = Some d →
  NoDup d.*1 ∧
  (∀ x v, (x, v) ∈ d → x ∈ items ∧ key x = Some v) ∧
  length d ≤ length items ∧
  ((0 ≤ n)%Z → length d ≤ Z.to_nat n) ∧
  StronglySorted (λ p q, cmp q.2 p.2 = false) d ∧
  (∀ x kx y v, x ∈ items → key x = Some kx → x ∉ d.*1 → (y, v) ∈ d →
               cmp kx v = false) ∧
  (∀ x y v u, [(x, v); (y, u)] `sublist_of` d → tied cmp v u →
              [x; y] `sublist_of` items).
Proof.
  intros Hdec Hrank. apply mapM_Some_1 in Hdec.
  assert (dec.*2 = items) as Hitems.
  { clear Hrank. induction Hdec as [|x [c x'] items dec Hx _ IH]; [done|].
    cbn. rewrite IH. f_equal. destruct (key x); by simplify_eq/=. }
  assert (Forall (λ p, key p.2 = Some p.1) dec) as Hkeys.
  { clear Hrank Hitems. induction Hdec as [|x [c x'] items dec Hx _ IH];
      constructor; [|done]. destruct (key x) eqn:Hk; by simplify_eq/=. }
  set (S := stable_sort cmp dec) in *.
  assert (S ≡ₚ dec) as Hperm by apply stable_sort_perm.
  assert (StronglySorted (ordered cmp) S) as Hsorted
    by (by apply stable_sort_sorted).
  destruct (py_prefix_take n S.*2) as (m & Hm & Hmn).
  rewrite Hm, <- fmap_take in Hrank.
  destruct (ranking_loop key (take m S) [] []) as (d' & Hd' & Hnd & Hsub & Hall).
  { cbn [app]. eapply Forall_forall. intros p Hp.
    rewrite Forall_forall in Hkeys. apply Hkeys. rewrite <- Hperm.
    by apply (subseteq_take m S). }
  { constructor. }
  { constructor. }
  { by intros p ?%elem_of_nil. }
  unfold ranking in Hrank. rewrite Hd' in Hrank. injection Hrank as ->.
  cbn [app] in Hsub, Hall.
  assert (∀ x v, (x, v) ∈ d → (v, x) ∈ take m S) as Hin_take.
  { intros x v Hin. eapply elem_of_sublist in Hin; [|exact Hsub].
    apply list_elem_of_fmap in Hin as ([v' x'] & [= -> ->] & Hin). done. }
  assert (∀ x v, (v, x) ∈ S → x ∈ items ∧ key x = Some v) as Hin_S.
  { intros x v Hin. rewrite Hperm in Hin. split.
    - rewrite <- Hitems. apply list_elem_of_fmap. by exists (v, x).
    - rewrite Forall_forall in Hkeys. by apply (Hkeys (v, x)). }
  split_and!.
  - done.
  - intros x v Hin. apply Hin_S. by apply (subseteq_take m S), Hin_take.
  - apply sublist_length in Hsub. rewrite length_fmap, length_take in Hsub.
    rewrite <- Hitems, length_fmap, <- Hperm. lia.
  - intros Hn. apply sublist_length in Hsub.
    rewrite length_fmap, length_take, (Hmn Hn) in Hsub. lia.
  - apply (StronglySorted_sublist _ _ _ Hsub).
    apply (StronglySorted_fmap _ (ordered cmp)); [done|].
    rewrite <- (take_drop m S) in Hsorted.
    by apply StronglySorted_app_1_l in Hsorted.
  - intros x kx y v Hx Hkx Hnin Hy.
    assert ((kx, x) ∈ S) as HxS.
    { rewrite Hperm. rewrite <- Hitems in Hx.
      apply list_elem_of_fmap in Hx as ([c x'] & Hx' & Hx). cbn in Hx'. subst x'.
      rewrite Forall_forall in Hkeys. specialize (Hkeys _ Hx). cbn in Hkeys.
      by assert (c = kx) as -> by congruence. }
    rewrite <- (take_drop m S) in HxS, Hsorted.
    apply elem_of_app in HxS as [HxS|HxS]; [by apply Hall in HxS|].
    apply (StronglySorted_app_1_elem_of _ _ _ (v, y) (kx, x)) in Hsorted;
      [done|by apply Hin_take|done].
  - intros x y v u Hxy [Hvu Huv].
    assert ([(v, x); (u, y)] `sublist_of` S) as HS.
    { etrans; [|apply (sublist_take S m)].
      assert ([(x, v); (y, u)] `sublist_of` prod_swap <$> take m S) as Hcomb
        by (by etrans).
      apply (fmap_sublist prod_swap) in Hcomb.
      by rewrite prod_swap_swap_fmap in Hcomb. }
    apply (filter_sublist_mono (λ p, tied cmp p.1 v)) in HS.
    unfold S in HS. rewrite (stable_sort_tied cmp cmp_trans) in HS.
    rewrite !filter_cons, filter_nil in HS. cbn [fst] in HS.
    assert (cmp v v = false) as Hvv.
    { apply not_true_is_false. intros E. pose proof (cmp_asym _ _ E).
      congruence. }
    rewrite !decide_True in HS by done.
    rewrite <- Hitems. apply (fmap_sublist snd [(v, x); (u, y)]).
    etrans; [exact HS|]. apply sublist_filter.
Qed.
End RankSpec.

(** ** [top] and [bot] *)

(** [top n items key] with a key function: the entries are distinct items of
    [items], each with its key value; there are at most [n] of them when [n]
    is not negative; they are listed from the largest key value down; no
    item left out has a larger key value than a listed one; and items whose
    key values are tied are listed in the order of [items]. The comparison
    [key_lt] has to be a strict weak order, as Python's [<] on numbers is. *)
Theorem top_ranked {A K : Type} `{EqDecision A} (key_lt : K → K → bool)
    (item_lt : A → A → bool) (key : A → option K) (n : Z) (items : list A)
    (d : list (A * K)) :
  (∀ a b, key_lt a b = true → key_lt b a = false) →
  (∀ a b c, key_lt b a = false → key_lt c b = false → key_lt c a = false) →
  top key_lt item_lt n items (Some key) = Some d →
  NoDup d.*1 ∧
  (∀ x v, (x, v) ∈ d → x ∈ items ∧ key x = Some v) ∧
  length d ≤ length items ∧
  ((0 ≤ n)%Z → length d ≤ Z.to_nat n) ∧
  StronglySorted (λ p q, key_lt p.2 q.2 = false) d ∧
  (∀ x kx y v, x ∈ items → key x = Some kx → x ∉ d.*1 → (y, v) ∈ d →
               key_lt v kx = false) ∧
  (∀ x y v u, [(x, v); (y, u)] `sublist_of` d → tied key_lt v u →
              [x; y] `sublist_of` items).
Proof.
  intros Hasym Htrans. unfold top, sorted_items, sorted.
  destruct (mapM _ items) as [dec|] eqn:Hdec; [|done]. cbn [mbind option_bind].
  intros Hd.
  destruct (rank_spec (flip key_lt)
              (λ a b, Hasym b a) (λ a b c H1 H2, Htrans c b a H2 H1)
              key n items dec d Hdec Hd)
    as (H1 & H2 & H3 & H4 & H5 & H6 & H7).
  split_and!; [done..|].
  intros x y v u Hsub [Hvu Huv]. apply (H7 x y v u Hsub). by split.
Qed.

Lemma top_ranked_witness :
  ∃ d : list (list ascii * nat),
    top Nat.ltb (λ _ _ : list ascii, false) 5 few (Some (wins few)) = Some d ∧
    NoDup d.*1 ∧
    (∀ x v, (x, v) ∈ d → x ∈ few ∧ wins few x = Some v) ∧
    length d ≤ length few ∧
    ((0 ≤ 5)%Z → length d ≤ Z.to_nat 5) ∧
    StronglySorted (λ p q, Nat.ltb p.2 q.2 = false) d ∧
    (∀ x kx y v, x ∈ few → wins few x = Some kx → x ∉ d.*1 → (y, v) ∈ d →
                 Nat.ltb v kx = false) ∧
    (∀ x y v u, [(x, v); (y, u)] `sublist_of` d → tied Nat.ltb v u →
                [x; y] `sublist_of` few).
Proof.
  eexists. split; [vm_compute; reflexivity|].
  apply (top_ranked Nat.ltb (λ _ _ : list ascii, false) (wins few) 5 few).
  - intros a b Hab. apply Nat.ltb_lt in Hab. apply Nat.ltb_ge. lia.
  - intros a b c Hba Hcb. apply Nat.ltb_ge in Hba, Hcb. apply Nat.ltb_ge. lia.
  - vm_compute. reflexivity.
Defined.

(** [bot n items key] with a key function: as [top], from the smallest key
    value up; no item left out has a smaller key value than a listed one. *)
Theorem bot_ranked {A K : Type} `{EqDecision A} (key_lt : K → K → bool)
    (item_lt : A → A → bool) (key : A → option K) (n : Z) (items : list A)
    (d : list (A * K)) :
  (∀ a b, key_lt a b = true → key_lt b a = false) →
  (∀ a b c, key_lt b a = false → key_lt c b = false → key_lt c a = false) →
  bot key_lt item_lt n items (Some key) = Some d →
  NoDup d.*1 ∧
  (∀ x v, (x, v) ∈ d → x ∈ items ∧ key x = Some v) ∧
  length d ≤ length items ∧
  ((0 ≤ n)%Z → length d ≤ Z.to_nat n) ∧
  StronglySorted (λ p q, key_lt q.2 p.2 = false) d ∧
  (∀ x kx y v, x ∈ items → key x = Some kx → x ∉ d.*1 → (y, v) ∈ d →
               key_lt kx v = false) ∧
  (∀ x y v u, [(x, v); (y, u)] `sublist_of` d → tied key_lt v u →
              [x; y] `sublist_of` items).
Proof.
  intros Hasym Htrans. unfold bot, sorted_items, sorted.
  destruct (mapM _ items) as [dec|] eqn:Hdec; [|done]. cbn [mbind option_bind].
  intros Hd.
  exact (rank_spec key_lt Hasym Htrans key n items dec d Hdec Hd).
Qed.

Lemma bot_ranked_witness :
  ∃ d : list (list ascii * nat),
    bot Nat.ltb (λ _ _ : list ascii, false) 3 few (Some (wins few)) = Some d ∧
    NoDup d.*1 ∧
    (∀ x v, (x, v) ∈ d → x ∈ few ∧ wins few x = Some v) ∧
    length d ≤ length few ∧
    ((0 ≤ 3)%Z → length d ≤ Z.to_nat 3) ∧
    StronglySorted (λ p q, Nat.ltb q.2 p.2 = false) d ∧
    (∀ x kx y v, x ∈ few → wins few x = Some kx → x ∉ d.*1 → (y, v) ∈ d →
                 Nat.ltb kx v = false) ∧
    (∀ x y v u, [(x, v); (y, u)] `sublist_of` d → tied Nat.ltb v u →
                [x; y] `sublist_of` few).
Proof.
  eexists. split; [vm_compute; reflexivity|].
  apply (bot_ranked Nat.ltb (λ _ _ : list ascii, false) (wins few) 3 few).
  - intros a b Hab. apply Nat.ltb_lt in Hab. apply Nat.ltb_ge. lia.
  - intros a b c Hba Hcb. apply Nat.ltb_ge in Hba, Hcb. apply Nat.ltb_ge. lia.
  - vm_compute. reflexivity.
Defined.

Lemma py_prefix_nil {B : Type} (n : Z) (l : list B) :
  py_prefix n l = [] ↔ n = 0%Z ∨ l = [] ∨ (n ≤ - Z.of_nat (length l))%Z.
Proof.
  unfold py_prefix. destruct l as [|x l].
  { rewrite !take_nil. case_decide; tauto. }
  case_decide.
  - destruct (Z.to_nat n) eqn:Hn; cbn [take length]; split; try done.
    + intros _. left. lia.
    + intros [?|[?|?]]; [lia|done|]. rewrite Nat2Z.inj_succ in *. lia.
  - destruct (length (x :: l) - Z.to_nat (- n)) eqn:Hm; cbn [take].
    + split; [|done]. intros _. right. right. lia.
    + split; [done|]. intros [?|[?|?]]; [lia|done|lia].
Qed.

(** With the default [key=None] the items are sorted by their own order, but
    [key(item)] then raises [TypeError] on the first item of the slice: [top]
    and [bot] return the empty dictionary when the slice [[:n]] is empty
    (no items, [n] zero, or [n] at most minus the number of items), and raise
    otherwise. *)
Theorem top_bot_default_key {A K : Type} `{EqDecision A}
    (key_lt : K → K → bool) (item_lt : A → A → bool) (n : Z) (items : list A) :
  let result : option (list (A * K)) :=
    if decide (n = 0%Z ∨ items = [] ∨ (n ≤ - Z.of_nat (length items))%Z)
    then Some [] else None in
  top key_lt item_lt n items None = result ∧
  bot key_lt item_lt n items None = result.
Proof.
  assert (∀ lt : A → A → bool,
            ∃ l, mapM (λ x : A, c ← Some x; Some (c, x)) items = Some l
                 ∧ length (stable_sort lt l).*2 = length items) as Hsort.
  { intros lt. exists ((λ x, (x, x)) <$> items). split.
    - apply mapM_Some_2. apply Forall2_fmap_r, Forall_Forall2_diag.
      by apply Forall_forall.
    - by rewrite length_fmap, stable_sort_perm, length_fmap. }
  assert (∀ chosen : list A,
            length chosen = length items →
            ranking (K := K) None (py_prefix n chosen)
            = if decide (n = 0%Z ∨ items = [] ∨ (n ≤ - Z.of_nat (length items))%Z)
              then Some [] else None) as Hrank.
  { intros chosen Hlen. unfold ranking.
    assert (py_prefix n chosen = [] ↔
            n = 0%Z ∨ items = [] ∨ (n ≤ - Z.of_nat (length items))%Z) as Hnil.
    { rewrite py_prefix_nil, Hlen. destruct chosen, items; naive_solver. }
    destruct (py_prefix n chosen) as [|x l].
    - rewrite decide_True by (by apply Hnil). done.
    - rewrite decide_False; [done|]. intros Hc. by apply Hnil in Hc. }
  cbn zeta. unfold top, bot, sorted_items, sorted. split.
  - destruct (Hsort (flip item_lt)) as (l & -> & Hlen). cbn [mbind option_bind].
    by apply Hrank.
  - destruct (Hsort item_lt) as (l & -> & Hlen). cbn [mbind option_bind].
    by apply Hrank.
Qed.

(** * The report *)

Example report_few :
  report few [str "HELLO"]
  = ([VerdictLine [str "HELLO"] true; CountsLine [(1, 4); (2, 2)]%Z; HeaderLine],
     Some [str "HELLO"]).
Proof. vm_compute. reflexivity. Qed.

Example report_loser :
  report (map str ["BELLE"; "BEVEL"; "BEZEL"]%string) []
  = ([VerdictLine [] false; CountsLine [(3, 1)]%Z; HeaderLine;
      BinLine (map str ["BELLE"; "BEVEL"; "BEZEL"]%string) (str "BELLE")],
     Some []).
Proof. vm_compute. reflexivity. Qed.

Lemma failing_filter (bin ws : list Word) :
  (∀ w, w ∈ ws → is_Some (can_win_bin w bin)) →
  failing bin ws = Some (filter (λ w, can_win_bin w bin = Some false) ws).
Proof.
  induction ws as [|w ws IH]; intros Hall; cbn [failing]; [done|].
  rewrite IH by (intros w' Hw'; apply Hall; by right).
  destruct (Hall w) as [b Hb]; [by left|]. rewrite filter_cons, !Hb.
  cbn [mbind option_bind].
  destruct b; [by rewrite decide_False|by rewrite decide_True].
Qed.

Lemma join_nil (sep : list ascii) (ws : list (list ascii)) :
  Forall (λ w, w ≠ []) ws → join sep ws = [] → ws = [].
Proof.
  destruct 1 as [|w ws Hw Hws]; [done|]. cbn [join].
  destruct ws; [done|]. by destruct w.
Qed.

Lemma report_bins_lines (bins : list (list Word)) :
  (∀ bin w, bin ∈ bins → w ∈ bin → is_Some (can_win_bin w bin)) →
  report_bins bins
  = ((λ bin, BinLine bin
               (join (str ", ")
                  (filter (λ w, can_win_bin w bin = Some false) bin)))
       <$> filter (λ bin, 2 < length bin) bins,
     Some ()).
Proof.
  induction bins as [|bin bins IH]; intros Hall; cbn [report_bins]; [done|].
  rewrite filter_cons, IH by (intros b w Hb; apply Hall; by right).
  case_decide; [|done].
  rewrite failing_filter by (intros w Hw; apply Hall; [by left|done]).
  done.
Qed.

(** The counter of bin sizes: its keys are pairwise different, and it maps
    exactly the sizes that occur to the number of bins of that size. *)
Lemma tally_size_keys (n : Z) (ctr : list (Z * Z)) :
  (tally_size n ctr).*1 = if decide (n ∈ ctr.*1) then ctr.*1 else ctr.*1 ++ [n].
Proof.
  induction ctr as [|[n' c'] ctr IH]; [done|]. cbn [tally_size].
  destruct (decide (n' = n)) as [->|Hne].
  - rewrite decide_True by (rewrite fmap_cons; left). done.
  - rewrite !fmap_cons, IH. cbn [fst].
    destruct (decide (n ∈ ctr.*1)) as [Hin|Hin].
    + rewrite decide_True by (by right). done.
    + rewrite decide_False; [done|]. rewrite elem_of_cons. naive_solver.
Qed.

Lemma elem_of_tally_size (n : Z) (ctr : list (Z * Z)) (m c : Z) :
  NoDup ctr.*1 →
  (m, c) ∈ tally_size n ctr ↔
  (m ≠ n ∧ (m, c) ∈ ctr) ∨
  (m = n ∧ ((∃ c0, (n, c0) ∈ ctr ∧ c = (c0 + 1)%Z) ∨ ((n ∉ ctr.*1) ∧ c = 1%Z))).
Proof.
  induction ctr as [|[n' c'] ctr IH]; intros Hnd; cbn [tally_size].
  { rewrite list_elem_of_singleton. split.
    - intros [= -> ->]. right. split; [done|]. right. split; [|done].
      apply not_elem_of_nil.
    - intros [[_ []%elem_of_nil]|[-> [(c0 & []%elem_of_nil & _)|[_ ->]]]]. done. }
  rewrite fmap_cons in Hnd. apply NoDup_cons in Hnd as [Hn' Hnd]. cbn [fst] in Hn'.
  assert (∀ x y, (x, y) ∈ ctr → x ∈ ctr.*1) as Hkey.
  { intros x y Hxy. apply list_elem_of_fmap. by exists (x, y). }
  destruct (decide (n' = n)) as [->|Hne].
  - rewrite !elem_of_cons. split.
    + intros [[= -> ->]|Hin].
      * right. split; [done|]. left. exists c'. split; [by left|done].
      * left. split; [|by right]. intros ->. by apply Hn', (Hkey n c).
    + intros [[Hm [[= -> ->]|Hin]]|[-> [(c0 & Hc0 & ->)|[Hnin _]]]].
      * done.
      * by right.
      * apply elem_of_cons in Hc0 as [[= ->]|Hc0]; [by left|].
        exfalso. by apply Hn', (Hkey n c0).
      * exfalso. apply Hnin. rewrite fmap_cons. by left.
  - rewrite !elem_of_cons, (IH Hnd). split.
    + intros [[= -> ->]|[[Hm Hin]|[-> Hcase]]].
      * left. split; [done|by left].
      * left. split; [done|by right].
      * right. split; [done|]. destruct Hcase as [(c0 & Hc0 & ->)|[Hnin ->]].
        -- left. exists c0. split; [by right|done].
        -- right. split; [|done]. rewrite fmap_cons, elem_of_cons. cbn [fst].
           naive_solver.
    + intros [[Hm [[= -> ->]|Hin]]|[-> Hcase]].
      * by left.
      * right. left. done.
      * right. right. split; [done|].
        destruct Hcase as [(c0 & Hc0 & ->)|[Hnin ->]].
        -- left. exists c0. split; [|done].
           apply elem_of_cons in Hc0 as [[= ? ?]|Hc0]; [congruence|done].
        -- right. split; [|done]. intros Hin. apply Hnin.
           rewrite fmap_cons. by right.
Qed.

Lemma size_counts_spec (bins : list (list Word)) :
  let counts := foldl (λ ctr bin, tally_size (bin_size bin) ctr) [] bins in
  NoDup counts.*1 ∧
  ∀ n c, (n, c) ∈ counts ↔
         (0 < c)%Z ∧
         c = Z.of_nat (length (filter (λ bin, bin_size bin = n) bins)).
Proof.
  cbv zeta. induction bins as [|b bins [Hnd IH]] using rev_ind.
  { split; [constructor|]. intros n c. cbn. split.
    - by intros ?%elem_of_nil.
    - intros [? ->]. lia. }
  rewrite foldl_snoc.
  set (ctr := foldl (λ ctr bin, tally_size (bin_size bin) ctr) [] bins) in *.
  assert (∀ n, n ∈ ctr.*1 ↔
               0 < length (filter (λ bin, bin_size bin = n) bins)) as Hkeys.
  { intros n. rewrite list_elem_of_fmap. split.
    - intros ([n' c] & -> & Hin). apply IH in Hin. cbn [fst]. lia.
    - intros Hpos. eexists (n, _). split; [done|]. apply IH. split; [|done]. lia. }
  split.
  - rewrite tally_size_keys. case_decide; [done|].
    apply NoDup_app. split_and!; [done| |apply NoDup_singleton].
    intros x Hx ->%list_elem_of_singleton. done.
  - intros n c. rewrite (elem_of_tally_size _ _ _ _ Hnd), filter_app, length_app.
    destruct (decide (bin_size b = n)) as [Hb|Hb].
    + rewrite (filter_cons_True _ b) by done. cbn [length filter list_filter].
      replace (length (filter (λ bin, bin_size bin = n) [])) with 0 by done.
      subst n. split.
      * intros [[? _]|[_ [(c0 & Hc0 & ->)|[Hnin ->]]]]; [done| |].
        -- apply IH in Hc0 as [? ->]. lia.
        -- rewrite Hkeys in Hnin. lia.
      * intros [Hpos ->]. right. split; [done|].
        destruct (decide (bin_size b ∈ ctr.*1)) as [Hin|Hnin].
        -- left. eexists. split; [apply IH; split; [|done]|].
           ++ apply Hkeys in Hin. lia.
           ++ lia.
        -- right. split; [done|]. rewrite Hkeys in Hnin. lia.
    + rewrite (filter_cons_False _ b) by done.
      replace (length (filter (λ bin, bin_size bin = n) [])) with 0 by done.
      rewrite Nat.add_0_r, IH. split.
      * intros [[_ ?]|[? _]]; [done|congruence].
      * intros ?. left. split; [congruence|done].
Qed.

(** On a duplicate-free corpus of five-letter words and guesses that can be
    encoded, [report] raises nothing and returns its argument. It prints the
    verdict of [can_win]; the bin counts, a counter whose keys are the
    different sizes of the bins, each with the number of bins of that size;
    the header; and one line for each bin of more than two words, in the
    order of the bins, naming the words of the bin that fail [can_win_bin].
    The verdict is "winner" exactly when no bin line carries a "will not
    work" note. *)
Theorem report_consistent (words guesses : list Word) :
  NoDup words → Forall (λ w, length w = 5) words →
  Forall (λ g, 5 ≤ length g) guesses →
  ∃ p winner,
    partition guesses words = Some p ∧
    can_win guesses words = Some winner ∧
    let counts :=
      foldl (λ ctr bin, tally_size (Z.of_nat (length bin)) ctr) [] (values p) in
    report words guesses
    = (VerdictLine guesses winner :: CountsLine counts :: HeaderLine ::
         ((λ bin, BinLine bin
                    (join (str ", ")
                       (filter (λ w, can_win_bin w bin = Some false) bin)))
            <$> filter (λ bin, 2 < length bin) (values p)),
       Some guesses) ∧
    NoDup counts.*1 ∧
    (∀ n c, (n, c) ∈ counts ↔
            (0 < c)%Z ∧
            c = Z.of_nat (length (filter (λ bin, Z.of_nat (length bin) = n)
                                    (values p)))) ∧
    (winner = true ↔
     ∀ bin fails, BinLine bin fails ∈ (report words guesses).1 → fails = []).
Proof.
  intros Hnd Hlen Hgs.
  assert (Forall (λ t, 5 ≤ length t) words) as Hlen5.
  { eapply Forall_impl; [exact Hlen|]. intros w ->. done. }
  destruct (partition_is_Some guesses words Hgs Hlen5) as [p Hp].
  destruct (can_win_is_Some guesses words Hgs Hlen5) as [winner Hwin].
  pose proof (partition_well_binned _ _ _ Hp) as [_ Hperm].
  assert (∀ bin w, bin ∈ values p → w ∈ bin → length w = 5) as Hbw.
  { intros bin w Hbin Hw. rewrite Forall_forall in Hlen. apply Hlen.
    rewrite <- Hperm. by apply (elem_of_concat_bin _ bin). }
  assert (∀ bin w, bin ∈ values p → w ∈ bin → is_Some (can_win_bin w bin))
    as Hsome.
  { intros bin w Hbin Hw. apply can_win_bin_is_Some.
    - rewrite (Hbw bin w); done.
    - apply Forall_forall. intros t Ht. rewrite (Hbw bin t); done. }
  assert (report words guesses
          = (VerdictLine guesses winner
               :: CountsLine (foldl (λ ctr bin, tally_size (bin_size bin) ctr)
                                [] (values p))
               :: HeaderLine
               :: ((λ bin, BinLine bin
                      (join (str ", ")
                         (filter (λ w, can_win_bin w bin = Some false) bin)))
                     <$> filter (λ bin, 2 < length bin) (values p)),
             Some guesses)) as Hreport.
  { unfold report. rewrite Hp, Hwin. cbn zeta.
    by rewrite (report_bins_lines _ Hsome). }
  destruct (size_counts_spec (values p)) as [Hkeys Hcounts].
  exists p, winner. cbv zeta.
  split_and!; [done|done|exact Hreport|exact Hkeys|exact Hcounts|].
  rewrite Hreport. cbn [fst]. split.
  - intros ->. apply can_win_true in Hwin as (p' & Hp' & Hok).
    assert (p' = p) as -> by congruence.
    intros bin fails Hin. do 3 (apply elem_of_cons in Hin as [?|Hin]; [done|]).
    apply list_elem_of_fmap in Hin as (b & [= -> ->] & [Hb2 Hb]%list_elem_of_filter).
    replace (filter _ b) with ([] : list Word); [done|].
    symmetry. apply elem_of_nil_inv. intros w [Hw Hin]%list_elem_of_filter.
    destruct (Hok _ Hb) as [?|Hsplit]; [lia|].
    apply Hsplit, can_win_bin_true in Hin. congruence.
  - intros Hnotes. destruct winner; [done|]. exfalso.
    assert (can_win guesses words = Some true); [|congruence].
    apply can_win_true. exists p. split; [done|]. intros bin Hbin.
    destruct (decide (length bin ≤ 1)) as [|Hbig]; [by left|right].
    intros w Hw. apply can_win_bin_true.
    destruct (decide (2 < length bin)) as [H2|H2].
    + destruct (Hsome bin w Hbin Hw) as [[] Hb]; [done|]. exfalso.
      set (fs := filter (λ w, can_win_bin w bin = Some false) bin).
      assert (join (str ", ") fs = []) as Hjoin.
      { apply (Hnotes bin). do 3 right. apply list_elem_of_fmap.
        exists bin. split; [done|]. by apply list_elem_of_filter. }
      apply join_nil in Hjoin.
      * assert (w ∈ fs) as Hin by (by apply list_elem_of_filter).
        rewrite Hjoin in Hin. by apply elem_of_nil in Hin.
      * apply Forall_forall. intros t [_ Ht]%list_elem_of_filter.
        intros ->. specialize (Hbw bin [] Hbin Ht). done.
    + assert (NoDup bin) as Hbnd.
      { apply (NoDup_concat_bin (values p)); [done|]. by rewrite Hperm. }
      destruct bin as [|a [|b [|c bin]]]; cbn [length] in *; try lia.
      apply NoDup_cons in Hbnd as [Hab _].
      apply can_win_bin_pair; [|by apply (Hbw [a; b]); [|left]| |done].
      * intros ->. apply Hab. by left.
      * apply (Hbw [a; b]); [done|]. right. by left.
Qed.

Lemma report_consistent_witness :
  ∃ p winner,
    partition [str "HELLO"] few = Some p ∧
    can_win [str "HELLO"] few = Some winner ∧
    let counts :=
      foldl (λ ctr bin, tally_size (Z.of_nat (length bin)) ctr) [] (values p) in
    report few [str "HELLO"]
    = (VerdictLine [str "HELLO"] winner :: CountsLine counts :: HeaderLine ::
         ((λ bin, BinLine bin
                    (join (str ", ")
                       (filter (λ w, can_win_bin w bin = Some false) bin)))
            <$> filter (λ bin, 2 < length bin) (values p)),
       Some [str "HELLO"]) ∧
    NoDup counts.*1 ∧
    (∀ n c, (n, c) ∈ counts ↔
            (0 < c)%Z ∧
            c = Z.of_nat (length (filter (λ bin, Z.of_nat (length bin) = n)
                                    (values p)))) ∧
    (winner = true ↔
     ∀ bin fails, BinLine bin fails ∈ (report few [str "HELLO"]).1 → fails = []).
Proof.
  apply report_consistent; apply (bool_decide_unpack _); vm_compute; exact I.
Defined.

(** * Conway's Game of Life *)

Example neighbors_1_2 :
  neighbors (1, 2)%Z
  = [(0, 1); (0, 2); (0, 3); (1, 1); (1, 3); (2, 1); (2, 2); (2, 3)]%Z.
Proof. vm_compute. reflexivity. Qed.

Example next_generation_world0 :
  next_generation world0 = {[ (1, 2); (1, 3); (2, 3) ]}%Z.
Proof. apply (bool_decide_unpack _). vm_compute. exact I. Qed.

Example life_world0 :
  life world0 4
  = [ {[ (1, 2); (1, 3); (2, 3); (3, 1) ]};
      {[ (1, 2); (1, 3); (2, 3) ]};
      {[ (1, 2); (1, 3); (2, 2); (2, 3) ]};
      {[ (1, 2); (1, 3); (2, 2); (2, 3) ]} ]%Z.
Proof. apply (bool_decide_unpack _). vm_compute. exact I. Qed.

Example neighbor_counts_world0 :
  cell_count (neighbor_counts world0) (2, 2)%Z = 4%Z ∧
  cell_count (neighbor_counts world0) (0, 4)%Z = 1%Z ∧
  cell_count (neighbor_counts world0) (9, 9)%Z = 0%Z.
Proof. vm_compute. done. Qed.

(** ** The neighbours of a cell *)

Lemma neighbors_offsets (x y : Z) :
  neighbors (x, y)
  = (λ d : Z * Z, (x + d.1, y + d.2)%Z)
      <$> [(-1, -1); (-1, 0); (-1, 1); (0, -1); (0, 1); (1, -1); (1, 0); (1, 1)]%Z.
Proof. reflexivity. Qed.

Lemma elem_of_neighbors (c c' : Cell) :
  c' ∈ neighbors c ↔
  c' ≠ c ∧ (-1 ≤ c'.1 - c.1 ≤ 1)%Z ∧ (-1 ≤ c'.2 - c.2 ≤ 1)%Z.
Proof.
  destruct c as [x y], c' as [a b]. rewrite neighbors_offsets. cbn [fst snd].
  rewrite list_elem_of_fmap. split.
  - intros ([dx dy] & [= -> ->] & Hd). cbn [fst snd].
    rewrite !elem_of_cons, elem_of_nil in Hd.
    repeat (destruct Hd as [Hd|Hd]); try done; injection Hd as -> ->;
      (split; [intros [=]; lia | lia]).
  - intros (Hne & Ha & Hb). exists (a - x, b - y)%Z. cbn [fst snd].
    split; [f_equal; lia|].
    assert (a - x = -1 ∨ a - x = 0 ∨ a - x = 1)%Z as Ha' by lia.
    assert (b - y = -1 ∨ b - y = 0 ∨ b - y = 1)%Z as Hb' by lia.
    destruct Ha' as [Ea|[Ea|Ea]], Hb' as [Eb|[Eb|Eb]]; rewrite Ea, Eb;
      try (exfalso; apply Hne; f_equal; lia);
      rewrite !elem_of_cons; by repeat (first [by left | right]).
Qed.

Lemma neighbors_sym (c c' : Cell) : c' ∈ neighbors c ↔ c ∈ neighbors c'.
Proof.
  rewrite !elem_of_neighbors. split; intros (Hne & ? & ?); (split; [congruence|lia]).
Qed.

Lemma NoDup_neighbors (c : Cell) : NoDup (neighbors c).
Proof.
  destruct c as [x y]. rewrite neighbors_offsets. apply NoDup_fmap_2.
  - intros [a b] [a' b'] [= ? ?]. f_equal; lia.
  - apply (bool_decide_unpack _). vm_compute. exact I.
Qed.

(** ** Counting with a [Counter] *)

Lemma cell_count_eq (c : gmap (Z * Z) Z) (x : Cell) :
  cell_count c x = default 0%Z (c !! x).
Proof. reflexivity. Qed.

Lemma counter_lookup (l : list Cell) (x : Cell) :
  foldl (λ c xy, <[xy := (cell_count c xy + 1)%Z]> c) ∅ l !! x
  = match length (filter (x =.) l) with
    | 0 => None
    | S n => Some (Z.of_nat (S n))
    end.
Proof.
  induction l as [|xy l IH] using rev_ind; [done|].
  rewrite foldl_snoc, filter_app, length_app.
  destruct (decide (x = xy)) as [->|Hne].
  - rewrite lookup_insert_eq, cell_count_eq, IH.
    rewrite filter_cons_True by done. cbn [length].
    replace (length (filter (eq xy) [])) with 0 by reflexivity.
    destruct (length (filter (xy =.) l)) as [|n]; cbn [default]; [done|].
    replace (S n + 1) with (S (S n)) by lia. unfold id. f_equal. lia.
  - rewrite lookup_insert_ne by done. rewrite IH.
    rewrite filter_cons_False by done.
    replace (length (filter (eq x) [])) with 0 by reflexivity.
    by rewrite Nat.add_0_r.
Qed.

Lemma count_NoDup (l : list Cell) (x : Cell) :
  NoDup l → length (filter (x =.) l) = if decide (x ∈ l) then 1 else 0.
Proof.
  induction 1 as [|y l Hy Hl IH]; [done|].
  destruct (decide (x = y)) as [->|Hne].
  - rewrite filter_cons_True by done. cbn [length]. rewrite IH.
    rewrite decide_False by done. rewrite decide_True by left. done.
  - rewrite filter_cons_False by done. rewrite IH.
    destruct (decide (x ∈ l)) as [Hin|Hin].
    + rewrite decide_True by (by right). done.
    + rewrite decide_False; [done|]. rewrite elem_of_cons. tauto.
Qed.

Lemma count_bind_neighbors (l : list Cell) (x : Cell) :
  length (filter (x =.) (l ≫= neighbors))
  = length (filter (λ c, c ∈ neighbors x) l).
Proof.
  induction l as [|c l IH]; [done|].
  rewrite bind_cons, filter_app, length_app, IH.
  rewrite count_NoDup by apply NoDup_neighbors.
  destruct (decide (x ∈ neighbors c)) as [Hin|Hin].
  - rewrite filter_cons_True by (by apply neighbors_sym). done.
  - rewrite filter_cons_False; [done|]. by rewrite neighbors_sym.
Qed.

Lemma live_neighbors_elements (w : World) (x : Cell) :
  length (filter (λ c, c ∈ neighbors x) (elements w)) = live_neighbors w x.
Proof.
  unfold live_neighbors. apply Permutation_length, NoDup_Permutation.
  - apply NoDup_filter, NoDup_elements.
  - apply NoDup_filter, NoDup_neighbors.
  - intros c. rewrite !list_elem_of_filter, elem_of_elements. tauto.
Qed.

Lemma neighbor_counts_lookup (w : World) (x : Cell) :
  neighbor_counts w !! x
  = match live_neighbors w x with
    | 0 => None
    | S n => Some (Z.of_nat (S n))
    end.
Proof.
  unfold neighbor_counts. rewrite counter_lookup, count_bind_neighbors.
  by rewrite live_neighbors_elements.
Qed.

Lemma cell_count_neighbor_counts (w : World) (x : Cell) :
  cell_count (neighbor_counts w) x = Z.of_nat (live_neighbors w x).
Proof.
  rewrite cell_count_eq, neighbor_counts_lookup.
  by destruct (live_neighbors w x).
Qed.

(** ** The rule of the game *)

Lemma elem_of_next_generation (w : World) (c : Cell) :
  c ∈ next_generation w ↔
  live_neighbors w c = 3 ∨ (live_neighbors w c = 2 ∧ c ∈ w).
Proof.
  unfold next_generation. rewrite elem_of_list_to_set, list_elem_of_fmap.
  split.
  - intros ([c' v] & -> & Hin). apply list_elem_of_filter in Hin as [HP Hin].
    apply elem_of_map_to_list in Hin. rewrite neighbor_counts_lookup in Hin.
    cbn [fst snd] in *. destruct (live_neighbors w c') as [|n]; [done|].
    injection Hin as <-. destruct HP as [?|[? ?]]; [left|right]; [|split; [|done]]; lia.
  - intros H. exists (c, Z.of_nat (live_neighbors w c)). split; [done|].
    apply list_elem_of_filter. cbn [fst snd]. split.
    + destruct H as [->|[-> ?]]; [by left|by right].
    + apply elem_of_map_to_list. rewrite neighbor_counts_lookup.
      by destruct H as [->|[-> ?]].
Qed.

Lemma elem_of_next_generation_kata (w : World) (c : Cell) :
  c ∈ next_generation_kata w ↔
  live_neighbors w c = 3 ∨ (live_neighbors w c = 2 ∧ c ∈ w).
Proof.
  unfold next_generation_kata. cbv zeta.
  rewrite elem_of_list_to_set, list_elem_of_filter, cell_count_neighbor_counts.
  rewrite list_elem_of_fmap. split.
  - intros [[?|[? ?]] _]; [left|right]; [|split; [|done]]; lia.
  - intros H. split.
    + destruct H as [->|[-> ?]]; [by left|by right].
    + exists (c, Z.of_nat (live_neighbors w c)). split; [done|].
      apply elem_of_map_to_list. rewrite neighbor_counts_lookup.
      by destruct H as [->|[-> ?]].
Qed.

(** ** Sliding *)

Lemma elem_of_slide (w : World) (dx dy : Z) (c : Cell) :
  c ∈ slide w dx dy ↔ (c.1 - dx, c.2 - dy)%Z ∈ w.
Proof.
  unfold slide. rewrite elem_of_map. split.
  - intros ([x y] & -> & Hin). cbn [fst snd].
    by replace (x + dx - dx)%Z with x by lia; replace (y + dy - dy)%Z with y by lia.
  - intros Hin. eexists; split; [|exact Hin]. destruct c as [x y].
    cbn [fst snd]. f_equal; lia.
Qed.

Lemma length_filter_fmap {A B} (f : A → B) (P : B → Prop)
    `{!∀ y, Decision (P y)} (l : list A) :
  length (filter P (f <$> l)) = length (filter (λ x, P (f x)) l).
Proof.
  induction l as [|a l IH]; [done|]. rewrite fmap_cons.
  destruct (decide (P (f a)));
    [rewrite !filter_cons_True by done|rewrite !filter_cons_False by done];
    cbn [length]; by rewrite IH.
Qed.

Lemma live_neighbors_slide (w : World) (dx dy : Z) (c : Cell) :
  live_neighbors (slide w dx dy) c = live_neighbors w (c.1 - dx, c.2 - dy)%Z.
Proof.
  unfold live_neighbors. destruct c as [x y]. cbn [fst snd].
  rewrite !neighbors_offsets, !length_filter_fmap.
  f_equal. apply list_filter_iff. intros [a b]. cbn [fst snd].
  rewrite elem_of_slide. cbn [fst snd].
  by replace (x + a - dx)%Z with (x - dx + a)%Z by lia;
     replace (y + b - dy)%Z with (y - dy + b)%Z by lia.
Qed.

Lemma next_generation_slide_eq (w : World) (dx dy : Z) :
  next_generation (slide w dx dy) = slide (next_generation w) dx dy.
Proof.
  apply set_eq. intros c.
  rewrite elem_of_slide, !elem_of_next_generation, live_neighbors_slide.
  by rewrite elem_of_slide.
Qed.

Lemma live_neighbors_bound (w : World) (c : Cell) :
  live_neighbors w c + (if decide (c ∈ w) then 1 else 0) ≤ size w.
Proof.
  unfold live_neighbors.
  set (l := filter (λ c', c' ∈ w) (neighbors c)).
  assert (NoDup l) as Hnd by apply NoDup_filter, NoDup_neighbors.
  rewrite <- (size_list_to_set (C:=World) l) by done.
  assert (list_to_set l ⊆ w ∖ {[c]}) as Hsub.
  { intros c'. rewrite elem_of_list_to_set, elem_of_difference, elem_of_singleton.
    unfold l. rewrite list_elem_of_filter, elem_of_neighbors. tauto. }
  apply subseteq_size in Hsub.
  destruct (decide (c ∈ w)) as [Hin|Hin].
  - rewrite size_difference in Hsub by (by apply singleton_subseteq_l).
    rewrite size_singleton in Hsub.
    assert (size w ≠ 0); [|lia].
    intros E%size_empty_inv. set_solver.
  - assert (size (w ∖ {[c]}) ≤ size w); [|lia].
    apply subseteq_size. set_solver.
Qed.

(** ** Pictures *)

Example picture_world0 :
  picture world0 (range 5) (range 5)
  = str ". . . . ." ++ [NL] ++ str ". . . @ ." ++ [NL] ++ str ". @ . . ." ++ [NL]
    ++ str ". @ @ . ." ++ [NL] ++ str ". . . . .".
Proof. vm_compute. reflexivity. Qed.

Example shape_padded :
  shape (str "@ @ ." ++ [NL] ++ str "         . @ @") 3 3
  = {[ (3, 3); (4, 3); (4, 4); (5, 4) ]}%Z.
Proof. apply (bool_decide_unpack _). vm_compute. exact I. Qed.

Example splitlines_examples :
  splitlines (str "ab" ++ [NL]) = [str "ab"] ∧
  splitlines [NL] = [[]] ∧
  splitlines [] = [] ∧
  splitlines (str "a" ++ ["013"; "010"]%char ++ str "b" ++ ["013"; "013"]%char)
  = [str "a"; str "b"; []] ∧
  splitlines (str "a" ++ [NL; NL]) = [str "a"; []].
Proof. vm_compute. done. Qed.

Lemma splitlines_from_plain (r cur s : list ascii) :
  Forall (λ c, line_break c = false) r →
  splitlines_from cur (r ++ s) = splitlines_from (cur ++ r) s.
Proof.
  intros Hr. revert cur. induction Hr as [|c r Hc Hr IH]; intros cur.
  - by rewrite app_nil_r.
  - cbn [app splitlines_from]. rewrite Hc, IH. by rewrite <- app_assoc.
Qed.

Lemma splitlines_from_NL (cur : list ascii) (c : ascii) (s : list ascii) :
  splitlines_from cur (NL :: c :: s) = cur :: splitlines_from [] (c :: s).
Proof. reflexivity. Qed.

Lemma splitlines_join (rows : list (list ascii)) :
  Forall (Forall (λ c, line_break c = false)) rows →
  splitlines (join [NL] rows) = drop_last_empty rows.
Proof.
  unfold splitlines. induction 1 as [|r rows Hr Hrows IH]; [done|].
  destruct rows as [|r2 rows].
  - cbn [join drop_last_empty].
    rewrite <- (app_nil_r r) at 1. rewrite splitlines_from_plain by done.
    by destruct r.
  - change (join [NL] (r :: r2 :: rows))
      with (r ++ [NL] ++ join [NL] (r2 :: rows)).
    change (drop_last_empty (r :: r2 :: rows))
      with (r :: drop_last_empty (r2 :: rows)).
    rewrite splitlines_from_plain by done. rewrite app_nil_l.
    rewrite <- IH. cbn [app].
    destruct (join [NL] (r2 :: rows)) as [|c s] eqn:E; [|done].
    cbn [splitlines_from]. change (line_break NL) with true. cbn match.
    done.
Qed.

Lemma drop_last_empty_lookup (rows : list (list ascii)) (j : nat) (row : list ascii) :
  row ≠ [] → drop_last_empty rows !! j = Some row ↔ rows !! j = Some row.
Proof.
  intros Hrow. revert j. induction rows as [|r rows IH]; intros j; [done|].
  destruct rows as [|r2 rows].
  - cbn [drop_last_empty]. destruct r; [|done].
    destruct j; cbn; [|done]. split; [done|]. by intros [= <-].
  - change (drop_last_empty (r :: r2 :: rows))
      with (r :: drop_last_empty (r2 :: rows)).
    destruct j; [done|]. cbn [lookup list_lookup]. apply IH.
Qed.

Lemma replace_pad_join (cs : list ascii) :
  PAD ∉ cs → replace_char PAD [] (join [PAD] ((λ c, [c]) <$> cs)) = cs.
Proof.
  unfold replace_char. induction cs as [|c cs IH]; [done|].
  rewrite not_elem_of_cons. intros [Hc Hcs]. specialize (IH Hcs).
  destruct cs as [|c2 cs].
  - cbn. by rewrite decide_False by done.
  - change (join [PAD] ((λ c, [c]) <$> c :: c2 :: cs))
      with ([c] ++ [PAD] ++ join [PAD] ((λ c, [c]) <$> c2 :: cs)).
    rewrite !bind_app, IH. cbn. rewrite decide_False by done.
    by rewrite decide_True by done.
Qed.

Lemma Forall_join {P : ascii → Prop} (sep : list ascii) (ws : list (list ascii)) :
  Forall P sep → Forall (Forall P) ws → Forall P (join sep ws).
Proof.
  intros Hsep. induction 1 as [|w ws Hw Hws IH]; [constructor|].
  destruct ws as [|w2 ws]; [done|].
  change (join sep (w :: w2 :: ws)) with (w ++ sep ++ join sep (w2 :: ws)).
  rewrite !Forall_app. auto.
Qed.

Lemma elem_of_enumerate {A} (l : list A) (k : Z) (a : A) :
  (k, a) ∈ enumerate l ↔ ∃ i, k = Z.of_nat i ∧ l !! i = Some a.
Proof.
  unfold enumerate. rewrite elem_of_lookup_imap. split.
  - intros (i & y & [= -> ->] & ?). eauto.
  - intros (i & -> & ?). eauto.
Qed.

Lemma elem_of_shape (p : list ascii) (dx dy : Z) (c : Cell) :
  c ∈ shape p dx dy ↔
  ∃ i j row, c = (Z.of_nat i + dx, Z.of_nat j + dy)%Z ∧
             splitlines p !! j = Some row ∧
             replace_char PAD [] row !! i = Some LIVE.
Proof.
  unfold shape. cbv zeta. rewrite elem_of_slide, elem_of_list_to_set.
  rewrite list_elem_of_bind. split.
  - intros ([y row] & Hin & Hrow). apply elem_of_enumerate in Hrow as (j & -> & Hj).
    apply list_elem_of_bind in Hin as ([x ch] & Hin & Hch).
    apply elem_of_enumerate in Hch as (i & -> & Hi).
    destruct (decide (ch = LIVE)) as [->|]; [|by apply elem_of_nil in Hin].
    apply list_elem_of_singleton in Hin. injection Hin as Hx Hy.
    exists i, j, row. split; [|done]. destruct c as [a b]. cbn [fst snd] in *.
    f_equal; lia.
  - intros (i & j & row & -> & Hj & Hi). exists (Z.of_nat j, row). split.
    + apply list_elem_of_bind. exists (Z.of_nat i, LIVE). split.
      * rewrite decide_True by done. apply list_elem_of_singleton.
        cbn [fst snd]. f_equal; lia.
      * apply elem_of_enumerate. eauto.
    + apply elem_of_enumerate. eauto.
Qed.

Lemma lookup_range (n : Z) (i : nat) (x : Z) :
  range n !! i = Some x ↔ x = Z.of_nat i ∧ (Z.of_nat i < n)%Z.
Proof.
  unfold range. rewrite list_lookup_fmap, fmap_Some. split.
  - intros (k & Hk & ->). apply lookup_seq in Hk as [-> ?]. split; [done|lia].
  - intros [-> ?]. exists i. split; [|done]. apply lookup_seq. split; [done|lia].
Qed.

(** Round trip: the shape read back from the picture of a world in the
    window [range(W)] by [range(H)] is the part of the world inside the
    window, slid by the offset. *)
Theorem shape_picture (w : World) (W H dx dy : Z) :
  shape (picture w (range W) (range H)) dx dy
  = slide (filter (λ c, (0 ≤ c.1 < W)%Z ∧ (0 ≤ c.2 < H)%Z) w) dx dy.
Proof.
  set (glyph := λ (y x : Z), if decide ((x, y) ∈ w) then LIVE else EMPTY).
  set (row := λ y : Z, join [PAD] ((λ c, [c]) <$> (glyph y <$> range W))).
  assert (picture w (range W) (range H) = join [NL] (row <$> range H)) as ->.
  { unfold picture. cbv zeta. f_equal. apply list_fmap_ext. intros _ y _.
    unfold row. f_equal. rewrite <- list_fmap_compose. apply list_fmap_ext.
    intros _ x _. unfold glyph. cbn [compose]. by destruct (decide _). }
  assert (∀ y, Forall (λ c, c = LIVE ∨ c = EMPTY) (glyph y <$> range W)) as Hglyph.
  { intros y. apply Forall_fmap, Forall_true. intros x. unfold glyph. cbn [compose].
    destruct (decide _); auto. }
  assert (∀ y, replace_char PAD [] (row y) = glyph y <$> range W) as Hstrip.
  { intros y. apply replace_pad_join. intros Hin.
    by destruct (proj1 (Forall_forall _ _) (Hglyph y) _ Hin). }
  assert (Forall (Forall (λ c, line_break c = false)) (row <$> range H)) as Hplain.
  { apply Forall_fmap, Forall_true. intros y. cbn [compose]. apply Forall_join.
    - by repeat constructor.
    - apply Forall_fmap. eapply Forall_impl; [apply Hglyph|].
      intros c [-> | ->]; cbn [compose]; by repeat constructor. }
  apply set_eq. intros c.
  rewrite elem_of_shape, splitlines_join by done.
  rewrite elem_of_slide, elem_of_filter. cbn [fst snd]. split.
  - intros (i & j & r & -> & Hj & Hi).
    assert (r ≠ []) as Hr by (by intros ->).
    apply (proj1 (drop_last_empty_lookup _ _ _ Hr)) in Hj.
    rewrite list_lookup_fmap, fmap_Some in Hj. destruct Hj as (y & Hy & ->).
    apply lookup_range in Hy as [-> ?].
    rewrite Hstrip, list_lookup_fmap, fmap_Some in Hi.
    destruct Hi as (x & Hx & Hg). apply lookup_range in Hx as [-> ?].
    unfold glyph in Hg. destruct (decide _) as [Hin|]; [|done].
    cbn [fst snd].
    replace (Z.of_nat i + dx - dx)%Z with (Z.of_nat i) by lia.
    replace (Z.of_nat j + dy - dy)%Z with (Z.of_nat j) by lia.
    split; [lia|done].
  - intros [[Hx Hy] Hin]. destruct c as [a b]. cbn [fst snd] in *.
    exists (Z.to_nat (a - dx)), (Z.to_nat (b - dy)), (row (b - dy)%Z).
    split; [f_equal; lia|]. split.
    + apply drop_last_empty_lookup.
      * intros E. pose proof (Hstrip (b - dy)%Z) as Hs. rewrite E in Hs.
        symmetry in Hs. apply fmap_nil_inv in Hs.
        assert (range W !! Z.to_nat (a - dx) = Some (a - dx)%Z) as Hl
          by (apply lookup_range; lia).
        by rewrite Hs in Hl.
      * rewrite list_lookup_fmap, fmap_Some. exists (b - dy)%Z. split; [|done].
        apply lookup_range. lia.
    + rewrite Hstrip, list_lookup_fmap, fmap_Some. exists (a - dx)%Z. split.
      * apply lookup_range. lia.
      * unfold glyph. by rewrite decide_True by done.
Qed.

(** ** The generations *)

Lemma generations_slide (w : World) (dx dy : Z) (n : nat) :
  generations (slide w dx dy) n = (λ w', slide w' dx dy) <$> generations w n.
Proof.
  revert w. induction n as [|n IH]; intros w; [done|].
  cbn [generations]. rewrite fmap_cons, next_generation_slide_eq. by rewrite IH.
Qed.

Lemma generations_lookup (w : World) (n k : nat) :
  k < n → generations w n !! k = Some (Nat.iter k next_generation w).
Proof.
  revert w k. induction n as [|n IH]; intros w k Hk; [lia|].
  destruct k as [|k]; [done|]. cbn [generations lookup list_lookup].
  rewrite IH by lia. by rewrite Nat.iter_succ_r.
Qed.

Lemma generations_length (w : World) (n : nat) : length (generations w n) = n.
Proof. revert w. induction n as [|n IH]; intros w; [done|]. cbn. by rewrite IH. Qed.

(** ** The properties of the game *)

(** Every cell has eight neighbours, all different: the cells other than
    itself that are at most one step away in each coordinate. *)
Theorem neighbors_adjacent (c : Cell) :
  length (neighbors c) = 8 ∧ NoDup (neighbors c) ∧
  ∀ c', c' ∈ neighbors c ↔
        c' ≠ c ∧ (Z.abs (c'.1 - c.1) ≤ 1)%Z ∧ (Z.abs (c'.2 - c.2) ≤ 1)%Z.
Proof.
  split; [by destruct c|]. split; [apply NoDup_neighbors|].
  intros c'. rewrite elem_of_neighbors.
  split; intros (? & ? & ?); (split; [done|lia]).
Qed.

(** [neighbor_counts] maps every cell that has a live neighbour to the number
    of its live neighbours, and has no entry for the other cells. *)
Theorem neighbor_counts_live (w : World) (c : Cell) :
  cell_count (neighbor_counts w) c = Z.of_nat (live_neighbors w c) ∧
  (neighbor_counts w !! c = None ↔ live_neighbors w c = 0).
Proof.
  split; [apply cell_count_neighbor_counts|].
  rewrite neighbor_counts_lookup. by destruct (live_neighbors w c).
Qed.

(** The rule of the game: a live cell stays alive exactly when it has two or
    three live neighbours, and a dead cell comes alive exactly when it has
    three. *)
Theorem next_generation_rule (w : World) (c : Cell) :
  (c ∈ w → c ∈ next_generation w ↔
           live_neighbors w c = 2 ∨ live_neighbors w c = 3) ∧
  (c ∉ w → c ∈ next_generation w ↔ live_neighbors w c = 3).
Proof.
  rewrite elem_of_next_generation. split; intros Hc; tauto.
Qed.

(** The second version of [next_generation] computes the same world as the
    first. *)
Theorem next_generation_kata_agrees (w : World) :
  next_generation_kata w = next_generation w.
Proof.
  apply set_eq. intros c.
  by rewrite elem_of_next_generation_kata, elem_of_next_generation.
Qed.

(** The game does not depend on the position: the next generation of a slid
    world is the slid next generation, and so for all the generations that
    [life] yields. *)
Theorem life_slide (w : World) (dx dy n : Z) :
  next_generation (slide w dx dy) = slide (next_generation w) dx dy ∧
  life (slide w dx dy) n = (λ w', slide w' dx dy) <$> life w n.
Proof.
  split; [apply next_generation_slide_eq|]. unfold life. apply generations_slide.
Qed.

(** A world of fewer than three cells dies out in one generation. *)
Theorem next_generation_small_world (w : World) :
  size w < 3 → next_generation w = ∅.
Proof.
  intros Hsize. apply set_eq. intros c.
  rewrite elem_of_next_generation, elem_of_empty.
  pose proof (live_neighbors_bound w c) as Hb.
  destruct (decide (c ∈ w)); split; try done; intros [?|[? ?]]; try done; lia.
Qed.

Lemma next_generation_small_world_witness :
  next_generation ({[ (0, 0); (0, 1) ]}%Z : World) = ∅.
Proof.
  apply next_generation_small_world.
  apply (bool_decide_unpack _). vm_compute. exact I.
Defined.

(** [life world n] yields [n] worlds, none when [n] is zero or negative; the
    one at position [k] (from 0) is the world after [k] generations. *)
Theorem life_generations (w : World) (n : Z) :
  length (life w n) = Z.to_nat n ∧
  ((n ≤ 0)%Z → life w n = []) ∧
  ∀ k : nat, (Z.of_nat k < n)%Z →
             life w n !! k = Some (Nat.iter k next_generation w).
Proof.
  unfold life. split_and!.
  - apply generations_length.
  - intros Hn. by replace (Z.to_nat n) with 0 by lia.
  - intros k Hk. apply generations_lookup. lia.
Qed.
